(** * gutengrep: sentence extraction, matching, correction and caching

    A shallow embedding of [gutengrep.py] (Python 2 with
    [unicode_literals]).  Text is a sequence of Unicode code points, file
    contents are sequences of byte values, the file system is a finite map
    from paths to contents, and the interpreter's exceptions (including
    [SystemExit]) are an explicit result.  The libraries the script calls
    ([glob], [codecs], [nltk], [re], [pickle], [textwrap]) are an interface
    ([PyLib]); the script's own functions are defined over it. *)

From Stdlib Require Import ZArith Lia.
From stdpp Require Import gmap strings list fin_maps sorting.

Open Scope Z_scope.

(** ** Unicode strings *)

(** A Python [unicode] object: its code points, in order. *)
Definition ustring := list Z.

(** File contents: byte values. *)
Definition bytes := list Z.

(** The unicode object denoted by an ASCII literal. *)
Definition u (s : string) : ustring :=
  (fun a => Z.of_nat (Ascii.nat_of_ascii a)) <$> String.list_ascii_of_string s.

(** The two quote characters the corrector looks for. *)
Definition dquote : ustring := [34].
Definition squote : ustring := [39].

Fixpoint startswith (s prefix : ustring) {struct prefix} : bool :=
  match prefix, s with
  | [], _ => true
  | _ :: _, [] => false
  | p :: prefix', c :: s' => (c =? p) && startswith s' prefix'
  end.

Definition endswith (s suffix : ustring) : bool :=
  startswith (reverse s) (reverse suffix).

(** [len(s)] *)
Definition len (s : ustring) : nat := length s.

(** ** Corrector: [correct_those] *)

Module Corrector.

(** One iteration of the body of the [for] loop: [sentence] is the element
    that [enumerate] yielded at index [i]; both [if] statements test that
    same local, and each assignment stores into [sentences[i]]. *)
Definition correct_step (i : nat) (sentence : ustring)
    (sentences : list ustring) : list ustring :=
  let sentences :=
    if startswith sentence dquote && negb (endswith sentence dquote)
    then <[i := sentence ++ dquote]> sentences
    else if startswith sentence squote && negb (endswith sentence squote)
    then <[i := sentence ++ squote]> sentences
    else sentences in
  if negb (startswith sentence dquote) && endswith sentence dquote
  then <[i := dquote ++ sentence]> sentences
  else if negb (startswith sentence squote) && endswith sentence squote
  then <[i := squote ++ sentence]> sentences
  else sentences.

(** The loop over [enumerate(sentences)], [n] elements still to visit.
    The list is updated in place while it is iterated; the iterator reads
    index [i] of the list as it is then. *)
Fixpoint correct_loop (n i : nat) (sentences : list ustring) : list ustring :=
  match n with
  | O => sentences
  | S n' =>
      match sentences !! i with
      | Some sentence => correct_loop n' (S i) (correct_step i sentence sentences)
      | None => sentences
      end
  end.

Definition correct_those (sentences : list ustring) : list ustring :=
  correct_loop (length sentences) 0 sentences.

(** The two tests of the first [if]/[elif], and of the second. *)
Definition appends (sentence : ustring) : bool :=
  (startswith sentence dquote && negb (endswith sentence dquote))
  || (startswith sentence squote && negb (endswith sentence squote)).

Definition prepends (sentence : ustring) : bool :=
  (negb (startswith sentence dquote) && endswith sentence dquote)
  || (negb (startswith sentence squote) && endswith sentence squote).

(** What one sentence ends up as: the value last stored at its index. *)
Definition corrected (sentence : ustring) : ustring :=
  if negb (startswith sentence dquote) && endswith sentence dquote
  then dquote ++ sentence
  else if negb (startswith sentence squote) && endswith sentence squote
  then squote ++ sentence
  else if startswith sentence dquote && negb (endswith sentence dquote)
  then sentence ++ dquote
  else if startswith sentence squote && negb (endswith sentence squote)
  then sentence ++ squote
  else sentence.

End Corrector.

(** ** The interpreter: library interface, world and exceptions *)

(** A compiled pattern, seen through [search]: whether it matches
    somewhere in the subject. *)
Definition pattern := ustring -> bool.

(** A loaded Punkt tokenizer, seen through [tokenize]. *)
Definition tokenizer := ustring -> list ustring.

(** The library functions the script calls.  [None] stands for the exception
    the call raises: [UnicodeDecodeError] for [codecs_decode_cp1252],
    [LookupError] for [nltk_data_load] (resource not installed), [re.error]
    for [re_compile], an unpickling error for [pickle_loads]. *)
Class PyLib := {
  glob_glob : ustring -> list ustring;
  os_sep : Z;
  os_altsep : option Z;
  codecs_decode_cp1252 : bytes -> option ustring;
  nltk_data_load : option tokenizer;
  re_compile : ustring -> Z -> option pattern;
  pickle_dumps : list ustring -> bytes;
  pickle_loads : bytes -> option (list ustring);
  textwrap_fill : ustring -> nat -> ustring -> ustring -> ustring;
  encode_utf8 : ustring -> bytes
}.

(** What a run can read and change: the files, and the module global
    [TOKENIZER]. *)
Record world := World {
  fs : gmap ustring bytes;
  TOKENIZER : option tokenizer
}.

Definition set_fs (f : gmap ustring bytes -> gmap ustring bytes) (w : world) : world :=
  {| fs := f (fs w); TOKENIZER := TOKENIZER w |}.

Definition set_TOKENIZER (t : option tokenizer) (w : world) : world :=
  {| fs := fs w; TOKENIZER := t |}.

Inductive exn :=
  | SystemExit (msg : ustring)
  | NameError (name : ustring)
  | UnboundLocalError (name : ustring)
  | IOError (path : ustring)
  | LookupError
  | UnpicklingError
  | re_error.

(** [UnboundLocalError] is a subclass of [NameError]. *)
Definition is_NameError (e : exn) : bool :=
  match e with
  | NameError _ | UnboundLocalError _ => true
  | _ => false
  end.

Inductive res (A : Type) :=
  | Ok (a : A)
  | Raise (e : exn).
Arguments Ok {A} a.
Arguments Raise {A} e.

(** A computation: a result, or the exception that left it, and the world
    as it was then. *)
Definition M (A : Type) := world -> res A * world.

Definition ret {A} (a : A) : M A := fun w => (Ok a, w).
Definition raise {A} (e : exn) : M A := fun w => (Raise e, w).
Definition bind {A B} (m : M A) (k : A -> M B) : M B :=
  fun w => match m w with
           | (Ok a, w') => k a w'
           | (Raise e, w') => (Raise e, w')
           end.
Definition lift_res {A} (r : res A) : M A := fun w => (r, w).

Declare Scope py_scope.
Delimit Scope py_scope with py.
Notation "'do' x <- m ; k" := (bind m (fun x => k))
  (at level 10, x name, m at level 100, k at level 200) : py_scope.
Notation "'run' m ; k" := (bind m (fun _ => k))
  (at level 10, m at level 100, k at level 200) : py_scope.
Open Scope py_scope.

(** [sys.exit(msg)]: raises [SystemExit]; uncaught, the message goes to
    stderr and the exit status is 1. *)
Definition sys_exit {A} (msg : ustring) : M A := raise (SystemExit msg).

(** The process's exit status for the outcome of the script. *)
Definition exit_status {A} (r : res A) : Z :=
  match r with
  | Ok _ => 0
  | Raise _ => 1
  end.

(** The run ended by [sys.exit] with a message for the user. *)
Definition reported_error {A} (r : res A) : option ustring :=
  match r with
  | Raise (SystemExit msg) => Some msg
  | _ => None
  end.

(** Reading a local that may not have been assigned. *)
Definition read_local {A} (name : ustring) (v : option A) : M A :=
  match v with
  | Some a => ret a
  | None => raise (UnboundLocalError name)
  end.

(** Reading a module global that may not have been bound. *)
Definition read_global {A} (name : ustring) (v : option A) : M A :=
  match v with
  | Some a => ret a
  | None => raise (NameError name)
  end.

(** Truth value of a [unicode] or a [list]: non-empty. *)
Definition nonempty {A} (l : list A) : bool :=
  match l with [] => false | _ :: _ => true end.

(** Truth value of a value that is [None] or a sequence. *)
Definition truthy {A} (v : option (list A)) : bool :=
  match v with
  | Some l => nonempty l
  | None => false
  end.

(** ** Corpus cache: [load_cache], [save_cache] *)

Module Cache.
Section Cache.
Context `{PyLib}.

Definition SENTENCES_CACHE : ustring := u "sentences_cache.pkl".

(** [data] is [None] unless a file is there; [pickle.load] may raise. *)
Definition load_cache (filename : ustring) : M (option (list ustring)) :=
  fun w =>
    match fs w !! filename with
    | Some content =>
        match pickle_loads content with
        | Some data => (Ok (Some data), w)
        | None => (Raise UnpicklingError, w)
        end
    | None => (Ok None, w)
    end.

Definition save_cache (filename : ustring) (data : list ustring) : M unit :=
  fun w => (Ok tt, set_fs (<[filename := pickle_dumps data]>) w).

End Cache.
End Cache.

(** ** Loader and segmenter: [find_sentences_in_text],
    [load_sentences_from_files] *)

Module Loader.
Section Loader.
Context `{PyLib}.

(** [TOKENIZER.tokenize(text)], loading the tokenizer on first use. *)
Definition tokenize (text : ustring) : M (list ustring) :=
  fun w =>
    match TOKENIZER w with
    | Some t => (Ok (t text), w)
    | None =>
        match nltk_data_load with
        | Some t => (Ok (t text), set_TOKENIZER (Some t) w)
        | None => (Raise LookupError, w)
        end
    end.

(** Only [UnicodeDecodeError] is caught; a path that cannot be opened
    raises [IOError] out of the function. *)
Definition find_sentences_in_text (filename : ustring) : M (list ustring) :=
  fun w =>
    match fs w !! filename with
    | None => (Raise (IOError filename), w)
    | Some content =>
        match codecs_decode_cp1252 content with
        | None => (Ok [], w)
        | Some text => tokenize text w
        end
    end.

Fixpoint load_loop (files : list ustring) (all_sentences : list ustring)
    : M (list ustring) :=
  match files with
  | [] => ret all_sentences
  | filename :: files' =>
      do sentences <- find_sentences_in_text filename;
      load_loop files' (all_sentences ++ sentences)
  end.

Definition load_sentences_from_files (files : list ustring) : M (list ustring) :=
  load_loop files [].

(** A tokenizer is at hand: already loaded, or loadable. *)
Definition tokenizer_available (w : world) : Prop :=
  is_Some (TOKENIZER w) ∨ is_Some nltk_data_load.


End Loader.
End Loader.

(** ** Matcher: [find_matching_sentences] *)

Module Matcher.
Section Matcher.
Context `{PyLib}.

Definition re_IGNORECASE : Z := 2.

(** [re.search(regex, sentence, flags)] as a truth value. *)
Definition re_search (regex sentence : ustring) (flags : Z) : res bool :=
  match re_compile regex flags with
  | Some p => Ok (p sentence)
  | None => Raise re_error
  end.

Fixpoint match_loop (regex : ustring) (flags : Z) (sentences : list ustring)
    (matching_sentences : list ustring) : res (list ustring) :=
  match sentences with
  | [] => Ok matching_sentences
  | sentence :: sentences' =>
      match re_search regex sentence flags with
      | Ok true => match_loop regex flags sentences' (matching_sentences ++ [sentence])
      | Ok false => match_loop regex flags sentences' matching_sentences
      | Raise e => Raise e
      end
  end.

Definition find_matching_sentences (regex : ustring) (sentences : list ustring)
    (flags : Z) : res (list ustring) :=
  match_loop regex flags sentences [].

End Matcher.
End Matcher.

(** ** Reporter: [format], [output], [insert_thing_into_filename] and the
    length sort *)

Module Reporter.
Section Reporter.
Context `{PyLib}.

(** [p.rfind(c)]: the index of the last occurrence, or [-1]. *)
Fixpoint rfind_from (i : Z) (c : Z) (p : ustring) (found : Z) : Z :=
  match p with
  | [] => found
  | x :: p' => rfind_from (i + 1) c p' (if x =? c then i else found)
  end.

Definition rfind (p : ustring) (c : Z) : Z := rfind_from 0 c p (-1).

(** The [while] loop of [genericpath._splitext], which skips the leading
    dots of the last path component: whether some character in
    [filenameIndex .. dotIndex - 1] is not the extension separator. *)
Fixpoint has_non_dot (n : nat) (p : ustring) (filenameIndex : nat) (extsep : Z) : bool :=
  match n with
  | O => false
  | S n' =>
      match p !! filenameIndex with
      | Some c =>
          if c =? extsep then has_non_dot n' p (S filenameIndex) extsep else true
      | None => true
      end
  end.

(** [genericpath._splitext(p, sep, altsep, extsep)] *)
Definition _splitext (p : ustring) (sep : Z) (altsep : option Z) (extsep : Z)
    : ustring * ustring :=
  let sepIndex := rfind p sep in
  let sepIndex :=
    match altsep with
    | Some a => Z.max sepIndex (rfind p a)
    | None => sepIndex
    end in
  let dotIndex := rfind p extsep in
  if (sepIndex <? dotIndex)
     && has_non_dot (Z.to_nat (dotIndex - (sepIndex + 1))) p
          (Z.to_nat (sepIndex + 1)) extsep
  then (take (Z.to_nat dotIndex) p, drop (Z.to_nat dotIndex) p)
  else (p, []).

(** [os.path.splitext] *)
Definition splitext (p : ustring) : ustring * ustring :=
  _splitext p os_sep os_altsep 46.

Definition insert_thing_into_filename (thing filename : ustring) : ustring :=
  let '(root, ext) := splitext filename in
  root ++ thing ++ ext.

(** [s.replace("\r\n", " ")] *)
Fixpoint replace_crlf (s : ustring) : ustring :=
  match s with
  | [] => []
  | c :: s' =>
      match s' with
      | d :: s'' =>
          if (c =? 13) && (d =? 10) then 32 :: replace_crlf s''
          else c :: replace_crlf s'
      | [] => [c]
      end
  end.

(** [format(text, indent=0, width=70)] *)
Definition format (text : ustring) (indent width : nat) : ustring :=
  textwrap_fill text width (replicate indent 32) (replicate indent 32).

(** The bytes one sentence adds to the file. *)
Definition block (s : ustring) : bytes :=
  let s := replace_crlf s in
  let out := format s 0 70 ++ [10; 10] in
  encode_utf8 out.

(** What the [for] loop writes: each sentence's block after the previous
    one. *)
Definition written (sentences : list ustring) : bytes :=
  foldl (fun content s => content ++ block s) [] sentences.

(** [open(filename, "w")] creates or truncates the file, then the loop
    writes into it. *)
Definition output (sentences : list ustring) (filename : ustring) : M unit :=
  fun w => (Ok tt, set_fs (<[filename := written sentences]>) w).

(** The built-in [list.sort(key=len)]: ascending and stable.  Each
    element is placed before the first one that is not shorter, starting
    from the end of the list. *)
Fixpoint insert_by_len (x : ustring) (l : list ustring) : list ustring :=
  match l with
  | [] => [x]
  | y :: l' =>
      if (len x <=? len y)%nat then x :: y :: l'
      else y :: insert_by_len x l'
  end.

Definition sort_by_len (l : list ustring) : list ustring :=
  foldr insert_by_len [] l.

(** Not longer than: the order of the sort. *)
Definition shorter (s t : ustring) : Prop := (len s <= len t)%nat.

(** The sentences of length [n], in the order of the list. *)
Definition of_len (n : nat) (l : list ustring) : list ustring :=
  List.filter (fun s => (len s =? n)%nat) l.

End Reporter.
End Reporter.

(** ** Orchestrator: [gutengrep] and the command line *)

Module Orchestrator.
Section Orchestrator.
Context `{PyLib}.
Import Cache Loader Matcher Corrector Reporter.

(** The parsed command line, [args]. *)
Record Namespace := {
  ns_regex : ustring;
  ns_inspec : option ustring;
  ns_outfile : ustring;
  ns_ignore_case : bool;
  ns_sort : bool;
  ns_cache : bool;
  ns_correct : bool
}.

(** Truth value of [inspec]: given, and not the empty string. *)
Definition given (inspec : option ustring) : bool :=
  match inspec with
  | Some spec => nonempty spec
  | None => false
  end.

(** Lines 133-139: the two configuration checks.  The result is the
    local [files], which stays unassigned when [inspec] is false. *)
Definition resolve_files (inspec : option ustring) (cache : bool)
    : M (option (list ustring)) :=
  run (if negb (given inspec) && negb cache
       then sys_exit (u "Error: inspec and/or cache arguments needed")
       else ret tt);
  match inspec with
  | Some spec =>
      if nonempty spec then
        let files := glob_glob spec in
        if negb (nonempty files)
        then sys_exit (u "No input files found matching " ++ spec)
        else ret (Some files)
      else ret None
  | None => ret None
  end.

(** Lines 141-144. *)
Definition re_flags (ignore_case : bool) : Z :=
  if ignore_case then re_IGNORECASE else 0.

(** Lines 146-154: the corpus, from the cache or from the files. *)
Definition obtain_sentences (files : option (list ustring)) (cache : bool)
    : M (list ustring) :=
  do sentences <- (if cache then load_cache SENTENCES_CACHE else ret None);
  match sentences with
  | Some (s :: l) => ret (s :: l)
  | _ =>
      do files <- read_local (u "files") files;
      do sentences <- load_sentences_from_files files;
      run (if cache then save_cache SENTENCES_CACHE sentences else ret tt);
      ret sentences
  end.

(** Lines 161-170: correction, output and the sorted second pass.  The
    test reads the global [args]; the parameter [correct] is not read. *)
Definition report (args : option Namespace) (sentences : list ustring)
    (outfile : ustring) (sort : bool) : M unit :=
  do a <- read_global (u "args") args;
  let sentences := if ns_correct a then correct_those sentences else sentences in
  run output sentences outfile;
  if sort then
    let sentences := sort_by_len sentences in
    let outfile := insert_thing_into_filename (u "-sort") outfile in
    output sentences outfile
  else ret tt.

(** Lines 156-170, from the corpus on: filter, then report. *)
Definition match_and_report (args : option Namespace) (sentences : list ustring)
    (regex outfile : ustring) (ignore_case sort : bool) : M unit :=
  let flags := re_flags ignore_case in
  do sentences <- lift_res (find_matching_sentences regex sentences flags);
  report args sentences outfile sort.

(** Lines 141-170, from the resolved [files] on. *)
Definition gutengrep_from (args : option Namespace) (files : option (list ustring))
    (regex outfile : ustring) (ignore_case sort cache : bool) : M unit :=
  do sentences <- obtain_sentences files cache;
  match_and_report args sentences regex outfile ignore_case sort.

(** [gutengrep(regex, inspec, outfile, ignore_case, sort, cache, correct)],
    called in a module whose global [args] is bound to [args], or unbound
    ([None]). *)
Definition gutengrep (args : option Namespace) (regex : ustring)
    (inspec : option ustring) (outfile : ustring)
    (ignore_case sort cache correct : bool) : M unit :=
  do files <- resolve_files inspec cache;
  gutengrep_from args files regex outfile ignore_case sort cache.

(** Lines 133-159 on their own: the run up to and including the filter,
    with the match set as its result. *)
Definition matched (regex : ustring) (inspec : option ustring)
    (ignore_case cache : bool) : M (list ustring) :=
  do files <- resolve_files inspec cache;
  do sentences <- obtain_sentences files cache;
  lift_res (find_matching_sentences regex sentences (re_flags ignore_case)).

(** The [__main__] block: [args] is bound at module level, then passed
    field by field. *)
Definition main (args : Namespace) : M unit :=
  gutengrep (Some args) (ns_regex args) (ns_inspec args) (ns_outfile args)
    (ns_ignore_case args) (ns_sort args) (ns_cache args) (ns_correct args).

(** The world a fresh process starts from: the files on disk, and
    [TOKENIZER = None]. *)
Definition initial (files : gmap ustring bytes) : world :=
  {| fs := files; TOKENIZER := None |}.

End Orchestrator.
End Orchestrator.

(** ** A small stand-in for the libraries

    A concrete [PyLib] on which the script's functions evaluate: cp1252
    and UTF-8 as they are, and simple stand-ins for the rest (a glob with
    one known pattern, a tokenizer that cuts after each full stop, patterns
    that are literal substrings, a serializer with a terminator after each
    string, no line wrapping). *)

Module Double.

(** The cp1252 code page: bytes 0x81, 0x8D, 0x8F, 0x90 and 0x9D are
    undefined. *)
Definition cp1252_high : list (option Z) :=
  [ Some 0x20AC; None;        Some 0x201A; Some 0x0192;
    Some 0x201E; Some 0x2026; Some 0x2020; Some 0x2021;
    Some 0x02C6; Some 0x2030; Some 0x0160; Some 0x2039;
    Some 0x0152; None;        Some 0x017D; None;
    None;        Some 0x2018; Some 0x2019; Some 0x201C;
    Some 0x201D; Some 0x2022; Some 0x2013; Some 0x2014;
    Some 0x02DC; Some 0x2122; Some 0x0161; Some 0x203A;
    Some 0x0153; None;        Some 0x017E; Some 0x0178 ].

Definition cp1252_char (b : Z) : option Z :=
  if (0 <=? b) && (b <? 0x80) then Some b
  else if (0x80 <=? b) && (b <? 0xA0)
  then default None (cp1252_high !! Z.to_nat (b - 0x80))
  else if (0xA0 <=? b) && (b <? 0x100) then Some b
  else None.

Fixpoint cp1252_decode (content : bytes) : option ustring :=
  match content with
  | [] => Some []
  | b :: content' =>
      match cp1252_char b, cp1252_decode content' with
      | Some c, Some text => Some (c :: text)
      | _, _ => None
      end
  end.

Definition utf8_char (c : Z) : bytes :=
  if c <? 0x80 then [c]
  else if c <? 0x800
  then [Z.lor 0xC0 (Z.shiftr c 6); Z.lor 0x80 (Z.land c 0x3F)]
  else if c <? 0x10000
  then [Z.lor 0xE0 (Z.shiftr c 12);
        Z.lor 0x80 (Z.land (Z.shiftr c 6) 0x3F);
        Z.lor 0x80 (Z.land c 0x3F)]
  else [Z.lor 0xF0 (Z.shiftr c 18);
        Z.lor 0x80 (Z.land (Z.shiftr c 12) 0x3F);
        Z.lor 0x80 (Z.land (Z.shiftr c 6) 0x3F);
        Z.lor 0x80 (Z.land c 0x3F)].

Definition utf8_encode (s : ustring) : bytes := s ≫= utf8_char.

(** Cut after each full stop; drop the spaces that follow it. *)
Fixpoint cut_sentences (text : ustring) (cur : ustring) : list ustring :=
  match text with
  | [] => if nonempty cur then [reverse cur] else []
  | c :: text' =>
      if c =? 46 then reverse (c :: cur) :: cut_sentences text' []
      else if (c =? 32) && negb (nonempty cur) then cut_sentences text' cur
      else cut_sentences text' (c :: cur)
  end.

Definition split_tokenizer : tokenizer := fun text => cut_sentences text [].

Definition lower (c : Z) : Z :=
  if (65 <=? c) && (c <=? 90) then c + 32 else c.

Fixpoint contains (hay needle : ustring) : bool :=
  startswith hay needle
  || match hay with
     | [] => false
     | _ :: hay' => contains hay' needle
     end.

(** A pattern is a literal; a lone opening parenthesis does not compile. *)
Definition literal_compile (regex : ustring) (flags : Z) : option pattern :=
  if bool_decide (regex = u "(") then None
  else if Z.testbit flags 1
  then Some (fun s => contains (lower <$> s) (lower <$> regex))
  else Some (fun s => contains s regex).

(** Each code point is stored shifted away from 0, and 0 ends a string. *)
Definition shift (c : Z) : Z := if 0 <=? c then c + 1 else c.
Definition unshift (b : Z) : Z := if 0 <? b then b - 1 else b.

Definition dumps (data : list ustring) : bytes :=
  data ≫= (fun s => (shift <$> s) ++ [0]).

Fixpoint loads_list (content : bytes) : list ustring :=
  match content with
  | [] => []
  | b :: content' =>
      let rest := loads_list content' in
      if b =? 0 then [] :: rest
      else match rest with
           | s :: rest' => (unshift b :: s) :: rest'
           | [] => [[unshift b]]
           end
  end.

(** Content that does not end with the terminator is not a record. *)
Definition loads (content : bytes) : option (list ustring) :=
  if nonempty content && negb (bool_decide (last content = Some 0))
  then None
  else Some (loads_list content).

Definition txt_files : list ustring := [u "a.txt"; u "bad.txt"; u "b.txt"].

Definition glob_txt (spec : ustring) : list ustring :=
  if bool_decide (spec = u "*.txt") then txt_files else [].

#[export] Instance lib : PyLib := {|
  glob_glob := glob_txt;
  os_sep := 47;
  os_altsep := None;
  codecs_decode_cp1252 := cp1252_decode;
  nltk_data_load := Some split_tokenizer;
  re_compile := literal_compile;
  pickle_dumps := dumps;
  pickle_loads := loads;
  textwrap_fill := fun text _ _ _ => text;
  encode_utf8 := utf8_encode
|}.

(** Three files; [bad.txt] holds the byte 0x81, which cp1252 does not
    define. *)
Definition disk : gmap ustring bytes :=
  {[ u "a.txt" := u "Call me Ishmael. The whale swam.";
     u "bad.txt" := u "A whale " ++ [0x81] ++ u " here.";
     u "b.txt" := u "'Thar she blows!' cried a whale." ]}.

Definition disk_sentences : list ustring :=
  [u "Call me Ishmael."; u "The whale swam."; u "'Thar she blows!' cried a whale."].

(** The same disk after a run with the cache flag. *)
Definition cached_disk : gmap ustring bytes :=
  <[Cache.SENTENCES_CACHE := dumps disk_sentences]> disk.

(** The disk with a cache file that holds the empty list. *)
Definition empty_cached_disk : gmap ustring bytes :=
  <[Cache.SENTENCES_CACHE := dumps []]> disk.

(** The world after the three files of the disk were loaded. *)
Definition loaded : world := {| fs := disk; TOKENIZER := Some split_tokenizer |}.

(** A command line: the pattern [whale] over [*.txt], sorted second pass
    and correction on. *)
Definition cli : Orchestrator.Namespace := {|
  Orchestrator.ns_regex := u "whale";
  Orchestrator.ns_inspec := Some (u "*.txt");
  Orchestrator.ns_outfile := u "output.log";
  Orchestrator.ns_ignore_case := false;
  Orchestrator.ns_sort := true;
  Orchestrator.ns_cache := false;
  Orchestrator.ns_correct := true
|}.

End Double.

(** ** Notions for the statements *)

(** A sentence whose two ends agree on each quote character: it starts
    with the double quote exactly when it ends with it, and likewise for the
    single quote. *)
Definition balanced (s : ustring) : bool :=
  eqb (startswith s dquote) (endswith s dquote)
  && eqb (startswith s squote) (endswith s squote).

(** [s'] is [s], or [s] with one quote character put in front or at the
    end. *)
Definition quote_added (s s' : ustring) : Prop :=
  s' = s \/ s' = dquote ++ s \/ s' = squote ++ s
  \/ s' = s ++ dquote \/ s' = s ++ squote.

Section LoaderNotions.
Context `{PyLib}.

(** The tokenizer the next [tokenize] call uses: the loaded one, else the
    one [nltk.data.load] returns. *)
Definition effective_tokenizer (w : world) : option tokenizer :=
  match TOKENIZER w with
  | Some t => Some t
  | None => nltk_data_load
  end.

(** The sentences of one file under a tokenizer: none when the file is
    missing or does not decode. *)
Definition file_sentences (t : tokenizer) (files : gmap ustring bytes)
    (filename : ustring) : list ustring :=
  match files !! filename with
  | Some content =>
      match codecs_decode_cp1252 content with
      | Some text => t text
      | None => []
      end
  | None => []
  end.

End LoaderNotions.

(** Whether a carriage return is directly followed by a line feed
    somewhere in the text. *)
Fixpoint has_crlf (s : ustring) : bool :=
  match s with
  | [] => false
  | c :: s' =>
      match s' with
      | d :: _ => ((c =? 13) && (d =? 10)) || has_crlf s'
      | [] => false
      end
  end.

(** * Properties *)

(** ** Corrector *)

Section CorrectorFacts.
Import Corrector.

Lemma insert_middle (pre post : list ustring) (x y : ustring) :
  <[length pre := y]> (pre ++ x :: post) = pre ++ y :: post.
Proof. by rewrite insert_app_r_alt, Nat.sub_diag by lia. Qed.

(** One iteration replaces the visited element by [corrected] of it. *)
Lemma correct_step_middle (pre post : list ustring) (s : ustring) :
  correct_step (length pre) s (pre ++ s :: post) = pre ++ corrected s :: post.
Proof.
  unfold correct_step, corrected.
  destruct (startswith s dquote), (endswith s dquote),
    (startswith s squote), (endswith s squote); simpl;
    rewrite ?insert_middle; reflexivity.
Qed.

Lemma correct_loop_map (rest pre : list ustring) :
  correct_loop (length rest) (length pre) (pre ++ rest) = pre ++ (corrected <$> rest).
Proof.
  revert pre. induction rest as [|s rest IH]; intros pre; simpl.
  - reflexivity.
  - rewrite list_lookup_middle by reflexivity.
    rewrite correct_step_middle.
    specialize (IH (pre ++ [corrected s])).
    rewrite length_app in IH. simpl in IH.
    replace (length pre + 1)%nat with (S (length pre)) in IH by lia.
    rewrite <- !app_assoc in IH. exact IH.
Qed.

(** The loop with in-place stores computes a map. *)
Lemma correct_those_map (sentences : list ustring) :
  correct_those sentences = corrected <$> sentences.
Proof. apply (correct_loop_map sentences []). Qed.

(** When both statements store, the second store is the one that stays:
    the sentence gains one character, in front. *)
Lemma corrected_both (s : ustring) :
  appends s = true → prepends s = true →
  corrected s = dquote ++ s ∨ corrected s = squote ++ s.
Proof.
  unfold appends, prepends, corrected.
  destruct (startswith s dquote), (endswith s dquote),
    (startswith s squote), (endswith s squote); simpl; intros; auto; discriminate.
Qed.

End CorrectorFacts.

(** C3. A sentence on which both tests succeed: [u "'abc" ++ dquote] starts
    with the single quote but does not end with it, and ends with the double
    quote but does not start with it.  [correct_those] returns
    [dquote ++ sentence]: the double quote was put in front, and the closing
    single quote that the first statement stored at the same index was
    overwritten, so the output is not [dquote ++ sentence ++ squote], the
    sentence with both modifications. *)
Theorem correct_those_both_tests_keep_only_prefix :
  let sentence := u "'abc" ++ dquote in
  Corrector.appends sentence = true ∧
  Corrector.prepends sentence = true ∧
  Corrector.correct_those [sentence] = [dquote ++ sentence] ∧
  Corrector.correct_those [sentence] ≠ [dquote ++ sentence ++ squote].
Proof. repeat split; try reflexivity. intros Hx. discriminate Hx. Qed.

(** C4, as the code has it.  The sentence [u "He said " ++ dquote ++ u "hello"]
    does not start with a quote character, so nothing is appended and the
    corrector returns it unchanged; the closing quote is appended when the
    sentence itself starts with the quote, as in [dquote ++ u "hello"]. *)
Theorem correct_those_he_said_unchanged :
  Corrector.correct_those [u "He said " ++ dquote ++ u "hello"]
    = [u "He said " ++ dquote ++ u "hello"] ∧
  Corrector.correct_those [dquote ++ u "hello"] = [dquote ++ u "hello" ++ dquote].
Proof. split; reflexivity. Qed.

(** C4, refuted as stated: the output for that sentence is not the sentence
    with a double quote appended. *)
Lemma correct_those_he_said_not_closed :
  Corrector.correct_those [u "He said " ++ dquote ++ u "hello"]
    ≠ [u "He said " ++ dquote ++ u "hello" ++ dquote].
Proof. intros Hx. discriminate Hx. Qed.

(** ** Matcher *)

Section MatcherFacts.
Context `{PyLib}.
Import Matcher.

(** With a pattern that compiles, the loop appends the matching sentences
    to the accumulator, in order. *)
Lemma match_loop_compiled regex flags p sentences acc :
  re_compile regex flags = Some p →
  match_loop regex flags sentences acc = Ok (acc ++ List.filter p sentences).
Proof.
  intros Hp. revert acc.
  induction sentences as [|s sentences IH]; intros acc; simpl.
  - by rewrite app_nil_r.
  - unfold re_search. rewrite Hp. destruct (p s).
    + rewrite IH. by rewrite <- app_assoc.
    + apply IH.
Qed.

(** With one that does not, the first call of [re.search] raises. *)
Lemma match_loop_invalid regex flags s sentences acc :
  re_compile regex flags = None →
  match_loop regex flags (s :: sentences) acc = Raise re_error.
Proof. intros Hp. simpl. unfold re_search. by rewrite Hp. Qed.

Lemma filter_sublist (p : pattern) (l : list ustring) :
  List.filter p l `sublist_of` l.
Proof.
  induction l as [|s l IH]; simpl; [constructor|].
  destruct (p s); by constructor.
Qed.

Lemma filter_all (p : pattern) (l : list ustring) :
  Forall (λ s, p s = true) (List.filter p l).
Proof.
  induction l as [|s l IH]; simpl; [constructor|].
  destruct (p s) eqn:Hs; [by constructor|done].
Qed.

Lemma filter_complete (p : pattern) (l : list ustring) (s : ustring) :
  s ∈ l → p s = true → s ∈ List.filter p l.
Proof.
  intros Hin Hs. apply list_elem_of_In, filter_In. split; [|done].
  by apply list_elem_of_In.
Qed.

(** C1. For every pattern, corpus and flags (the run passes
    [re_flags ignore_case], that is [re.IGNORECASE] or 0, for the two
    case-sensitivity settings), when [find_matching_sentences] returns, the
    match set is a subsequence of the corpus (same order, nothing added),
    every sentence in it is one that [re.search] finds the pattern in under
    those flags, and every such sentence of the corpus is in it.  It returns whenever the pattern compiles; the only other
    outcome is [re.error], from the first search with a pattern that does
    not compile. *)
Theorem find_matching_sentences_sound regex sentences flags :
  match find_matching_sentences regex sentences flags with
  | Ok matching =>
      matching `sublist_of` sentences
      ∧ Forall (λ s, re_search regex s flags = Ok true) matching
      ∧ (∀ s, s ∈ sentences → re_search regex s flags = Ok true → s ∈ matching)
  | Raise e =>
      e = re_error ∧ re_compile regex flags = None ∧ sentences ≠ []
  end.
Proof.
  unfold find_matching_sentences.
  destruct (re_compile regex flags) as [p|] eqn:Hp.
  - rewrite (match_loop_compiled _ _ p) by done. simpl.
    unfold re_search. rewrite Hp. split; [apply filter_sublist|]. split.
    + eapply Forall_impl; [apply filter_all|]. intros s Hs. simpl in Hs. by rewrite Hs.
    + intros s Hin Hs. apply filter_complete; [done|]. by injection Hs.
  - destruct sentences as [|s sentences]; simpl.
    + repeat split; [constructor|constructor|]. intros s Hs. inversion Hs.
    + unfold re_search. rewrite Hp. done.
Qed.

End MatcherFacts.

(** ** Corpus cache *)

Section CacheFacts.
Context `{PyLib}.
Import Cache.

(** C5. Saving a corpus to the cache file and loading from that file
    returns the corpus, for every corpus that [pickle] itself restores
    (the library's contract for a list of strings, the empty list
    included), whatever the file system held before. *)
Theorem load_cache_save_cache (filename : ustring) (corpus : list ustring) (w : world) :
  pickle_loads (pickle_dumps corpus) = Some corpus →
  ∃ w', save_cache filename corpus w = (Ok tt, w')
        ∧ load_cache filename w' = (Ok (Some corpus), w').
Proof.
  intros Hrt. eexists. split; [reflexivity|].
  unfold load_cache, set_fs. simpl.
  rewrite lookup_insert_eq. by rewrite Hrt.
Qed.

End CacheFacts.

Section CacheRuns.
#[local] Existing Instance Double.lib.

(** C5 at work on the stand-in serializer: a three-sentence corpus and the
  empty corpus. *)
Lemma load_cache_save_cache_witness :
(∃ w', Cache.save_cache Cache.SENTENCES_CACHE Double.disk_sentences
         (Orchestrator.initial Double.disk) = (Ok tt, w')
       ∧ Cache.load_cache Cache.SENTENCES_CACHE w' = (Ok (Some Double.disk_sentences), w'))
∧ (∃ w', Cache.save_cache Cache.SENTENCES_CACHE [] (Orchestrator.initial ∅) = (Ok tt, w')
         ∧ Cache.load_cache Cache.SENTENCES_CACHE w' = (Ok (Some []), w')).
Proof.
split.
- apply (load_cache_save_cache Cache.SENTENCES_CACHE Double.disk_sentences).
  vm_compute. reflexivity.
- apply (load_cache_save_cache Cache.SENTENCES_CACHE []).
  vm_compute. reflexivity.
Defined.

End CacheRuns.

(** ** Loader *)

(** Unfolding the monad. *)
Ltac monad_unfold :=
  repeat progress
    unfold bind, ret, raise, lift_res, sys_exit, read_local, read_global in *.

Section LoaderFacts.
Context `{PyLib}.
Import Loader.

Lemma tokenize_fs text w :
  fs (tokenize text w).2 = fs w.
Proof.
  unfold tokenize. destruct (TOKENIZER w); [done|].
  by destruct nltk_data_load.
Qed.

Lemma find_sentences_in_text_fs filename w :
  fs (find_sentences_in_text filename w).2 = fs w.
Proof.
  unfold find_sentences_in_text.
  destruct (fs w !! filename) as [content|]; [|done].
  destruct (codecs_decode_cp1252 content); [apply tokenize_fs|done].
Qed.

(** A file that does not decode gives no sentences, raises nothing and
    leaves the world as it was. *)
Lemma find_sentences_in_text_undecodable filename content w :
  fs w !! filename = Some content →
  codecs_decode_cp1252 content = None →
  find_sentences_in_text filename w = (Ok [], w).
Proof. intros Hf Hd. unfold find_sentences_in_text. by rewrite Hf, Hd. Qed.

Lemma load_loop_skip before filename content after acc w :
  fs w !! filename = Some content →
  codecs_decode_cp1252 content = None →
  load_loop (before ++ filename :: after) acc w = load_loop (before ++ after) acc w.
Proof.
  intros Hf Hd. revert acc w Hf.
  induction before as [|g before IH]; intros acc w Hf; simpl.
  - unfold bind. rewrite (find_sentences_in_text_undecodable _ content) by done.
    by rewrite app_nil_r.
  - unfold bind.
    pose proof (find_sentences_in_text_fs g w) as Hfs.
    destruct (find_sentences_in_text g w) as [[ss|e] w1]; simpl in Hfs; [|done].
    apply IH. by rewrite Hfs.
Qed.

Lemma tokenize_total text w :
  tokenizer_available w →
  ∃ ss w', tokenize text w = (Ok ss, w') ∧ tokenizer_available w'.
Proof.
  intros Hav. unfold tokenize.
  destruct (TOKENIZER w) as [t|] eqn:Ht.
  - eauto.
  - destruct Hav as [[t' Ht']|[t Hl]]; [congruence|]. rewrite Hl.
    eexists _, _. split; [done|]. left. by eexists.
Qed.

(** Readable files and a tokenizer at hand: the loop returns. *)
Lemma load_loop_total files acc w :
  (∀ f, f ∈ files → is_Some (fs w !! f)) →
  tokenizer_available w →
  ∃ ss w', load_loop files acc w = (Ok ss, w') ∧ fs w' = fs w.
Proof.
  revert acc w. induction files as [|g files IH]; intros acc w Hread Hav; simpl.
  - by eexists _, _.
  - unfold bind.
    destruct (Hread g) as [content Hg]; [by left|].
    assert (∃ ss w1, find_sentences_in_text g w = (Ok ss, w1)
                     ∧ tokenizer_available w1 ∧ fs w1 = fs w) as (ss & w1 & Hrun & Hav1 & Hfs1).
    { pose proof (find_sentences_in_text_fs g w) as Hfs.
      unfold find_sentences_in_text in *. rewrite Hg in *.
      destruct (codecs_decode_cp1252 content) as [text|].
      - destruct (tokenize_total text w Hav) as (ss & w1 & Hrun & Hav1).
        rewrite Hrun in *. by eexists _, _.
      - by eexists _, _. }
    rewrite Hrun.
    destruct (IH (acc ++ ss) w1) as (ss' & w' & Hloop & Hfs'); [|done|].
    { intros f Hin. rewrite Hfs1. apply Hread. by right. }
    eexists _, _. split; [done|]. by rewrite Hfs'.
Qed.

End LoaderFacts.

(** ** Orchestrator *)

Section OrchestratorFacts.
Context `{PyLib}.
Import Cache Loader Matcher Corrector Reporter Orchestrator.

(** The sentences that reach [output]: corrected when [args.correct]. *)
Lemma report_bound (a : Namespace) sentences outfile (sort : bool) w :
  let reported := if ns_correct a then correct_those sentences else sentences in
  report (Some a) sentences outfile sort w =
    if sort
    then (run output reported outfile;
          output (sort_by_len reported) (insert_thing_into_filename (u "-sort") outfile)) w
    else output reported outfile w.
Proof. unfold report. monad_unfold. simpl. by destruct sort. Qed.

Lemma report_unbound sentences outfile sort w :
  report None sentences outfile sort w = (Raise (NameError (u "args")), w).
Proof. reflexivity. Qed.

(** The run is the filter phase followed by [report]. *)
Lemma gutengrep_matched args regex inspec outfile ignore_case sort cache correct w :
  gutengrep args regex inspec outfile ignore_case sort cache correct w =
    (do matching <- matched regex inspec ignore_case cache;
     report args matching outfile sort) w.
Proof.
  unfold gutengrep, gutengrep_from, match_and_report, matched. unfold bind at 1 4 5.
  destruct (resolve_files inspec cache w) as [[files|e] w1]; [|done].
  unfold bind at 1 3.
  destruct (obtain_sentences files cache w1) as [[sentences|e] w2]; [|done].
  reflexivity.
Qed.

(** A cache record with at least one sentence is the corpus, and nothing
    else happens: no file is read, [files] is not looked at, [TOKENIZER] and
    the cache file stay as they are. *)
Lemma obtain_sentences_hit files content s l w :
  fs w !! SENTENCES_CACHE = Some content →
  pickle_loads content = Some (s :: l) →
  obtain_sentences files true w = (Ok (s :: l), w).
Proof.
  intros Hf Hl. unfold obtain_sentences, bind, load_cache. by rewrite Hf, Hl.
Qed.

(** No cache file, or an empty record: the corpus comes from the files. *)
Lemma obtain_sentences_miss files w :
  fs w !! SENTENCES_CACHE = None
  ∨ (∃ content, fs w !! SENTENCES_CACHE = Some content ∧ pickle_loads content = Some []) →
  obtain_sentences files true w =
    (do files <- read_local (u "files") files;
     do sentences <- load_sentences_from_files files;
     run save_cache SENTENCES_CACHE sentences;
     ret sentences) w.
Proof.
  intros [Hf|(content & Hf & Hl)]; unfold obtain_sentences, load_cache;
    unfold bind at 1; rewrite Hf; [done|]. by rewrite Hl.
Qed.

Lemma resolve_files_not_given inspec w :
  given inspec = false →
  resolve_files inspec true w = (Ok None, w).
Proof.
  intros Hg. unfold resolve_files. monad_unfold. rewrite Hg. simpl.
  destruct inspec as [spec|]; [|done]. simpl in Hg. by rewrite Hg.
Qed.

Lemma resolve_files_found spec cache w :
  nonempty spec = true → glob_glob spec ≠ [] →
  resolve_files (Some spec) cache w = (Ok (Some (glob_glob spec)), w).
Proof.
  intros Hs Hg. unfold resolve_files. monad_unfold. simpl. rewrite Hs. simpl.
  destruct (glob_glob spec); done.
Qed.

Lemma resolve_files_none_found spec cache w :
  nonempty spec = true → glob_glob spec = [] →
  resolve_files (Some spec) cache w
    = (Raise (SystemExit (u "No input files found matching " ++ spec)), w).
Proof.
  intros Hs Hg. unfold resolve_files. monad_unfold. simpl. rewrite Hs, Hg. done.
Qed.

(** C6. When an inspec was given (as the code tests it: a non-empty string)
    and globs to no file, the run ends at once in [sys.exit] with the
    message naming the inspec: exit status 1, and the world is as it was, so
    no output file (and no cache file) was written; this holds with or
    without the cache flag.  A file that fails to decode is a different,
    milder event: [find_sentences_in_text] returns the empty list and raises
    nothing. *)
Theorem gutengrep_no_input_files args regex spec outfile ignore_case sort cache correct w :
  nonempty spec = true →
  glob_glob spec = [] →
  let outcome := gutengrep args regex (Some spec) outfile ignore_case sort cache correct w in
  outcome = (Raise (SystemExit (u "No input files found matching " ++ spec)), w)
  ∧ reported_error outcome.1 = Some (u "No input files found matching " ++ spec)
  ∧ exit_status outcome.1 = 1
  ∧ fs outcome.2 = fs w
  ∧ (∀ filename content w0,
       fs w0 !! filename = Some content →
       codecs_decode_cp1252 content = None →
       find_sentences_in_text filename w0 = (Ok [], w0)).
Proof.
  intros Hs Hg outcome.
  assert (outcome = (Raise (SystemExit (u "No input files found matching " ++ spec)), w)) as ->.
  { unfold outcome, gutengrep. unfold bind.
    by rewrite resolve_files_none_found. }
  repeat split; try reflexivity.
  intros. by eapply find_sentences_in_text_undecodable.
Qed.

(** C9. With the cache flag set, no inspec (absent or empty), and either no
    cache file or a record that unpickles to the empty list, the run passes
    both configuration checks, reaches the fresh-segmentation branch and
    raises there on reading [files], which was never assigned: an
    [UnboundLocalError], a [NameError], not a [SystemExit], with the world
    unchanged. *)
Theorem gutengrep_cache_without_inspec args regex inspec outfile ignore_case sort correct w :
  given inspec = false →
  fs w !! SENTENCES_CACHE = None
  ∨ (∃ content, fs w !! SENTENCES_CACHE = Some content ∧ pickle_loads content = Some []) →
  let outcome := gutengrep args regex inspec outfile ignore_case sort true correct w in
  resolve_files inspec true w = (Ok None, w)
  ∧ outcome = (Raise (UnboundLocalError (u "files")), w)
  ∧ (∃ e, outcome.1 = Raise e ∧ is_NameError e = true)
  ∧ reported_error outcome.1 = None.
Proof.
  intros Hg Hc outcome.
  assert (outcome = (Raise (UnboundLocalError (u "files")), w)) as ->.
  { unfold outcome, gutengrep, gutengrep_from. unfold bind at 1.
    rewrite resolve_files_not_given by done.
    unfold bind at 1. by rewrite obtain_sentences_miss. }
  split; [by apply resolve_files_not_given|].
  split; [done|]. split; [|done]. by eexists.
Qed.

(** C2, as the code has it.  With the cache flag set and a cache record of at
    least one sentence at the cache path, and an inspec that is absent,
    empty, or globs to at least one file, the corpus is the cached record
    and the load pass does not run: [obtain_sentences] returns the record
    whatever [files] is (even unassigned) and leaves the world untouched,
    and the whole run is the filter-and-report pipeline on the record. *)
Theorem gutengrep_uses_cache args regex inspec outfile ignore_case sort correct
    content s l w :
  fs w !! SENTENCES_CACHE = Some content →
  pickle_loads content = Some (s :: l) →
  (∀ spec, inspec = Some spec → nonempty spec = true → glob_glob spec ≠ []) →
  (∀ files, obtain_sentences files true w = (Ok (s :: l), w))
  ∧ gutengrep args regex inspec outfile ignore_case sort true correct w
    = match_and_report args (s :: l) regex outfile ignore_case sort w.
Proof.
  intros Hf Hl Hglob.
  split; [intros files; by eapply obtain_sentences_hit|].
  unfold gutengrep, gutengrep_from. unfold bind at 1.
  assert (∃ files, resolve_files inspec true w = (Ok files, w)) as [files ->].
  { destruct (given inspec) eqn:Hg.
    - destruct inspec as [spec|]; [|done]. simpl in Hg.
      eexists. apply resolve_files_found; [done|]. by apply Hglob.
    - eexists. by apply resolve_files_not_given. }
  unfold bind at 1. by rewrite (obtain_sentences_hit files content s l).
Qed.

(** C10. The parameter [correct] is not read: the run is the same for both
    of its values.  What decides the correction is the global [args]; when
    it is bound, its field [correct] does.  When it is unbound and the run
    got as far as a match set, the run raises [NameError] for [args] right
    after the filter, in the world the filter phase left, before any output
    is written. *)
Theorem gutengrep_reads_global_args regex inspec outfile ignore_case sort cache
    matching w w' :
  matched regex inspec ignore_case cache w = (Ok matching, w') →
  (∀ args correct correct',
     gutengrep args regex inspec outfile ignore_case sort cache correct w
     = gutengrep args regex inspec outfile ignore_case sort cache correct' w)
  ∧ (∀ correct,
       gutengrep None regex inspec outfile ignore_case sort cache correct w
       = (Raise (NameError (u "args")), w'))
  ∧ (∀ a correct,
       gutengrep (Some a) regex inspec outfile ignore_case sort cache correct w
       = report (Some a)  matching outfile sort w'
       ∧ (report (Some a) matching outfile false w').2
         = set_fs (<[outfile := written
                       (if ns_correct a then correct_those matching else matching)]>) w').
Proof.
  intros Hm. split; [done|]. split.
  - intros correct. rewrite gutengrep_matched. unfold bind. by rewrite Hm.
  - intros a correct. split.
    + rewrite gutengrep_matched. unfold bind. by rewrite Hm.
    + by rewrite report_bound.
Qed.

(** Without the global [args], no call returns normally. *)
Lemma gutengrep_unbound_args_never_returns regex inspec outfile ignore_case sort cache
    correct w :
  (gutengrep None regex inspec outfile ignore_case sort cache correct w).1 ≠ Ok tt.
Proof.
  rewrite gutengrep_matched. unfold bind.
  by destruct (matched regex inspec ignore_case cache w) as [[matching|e] w'].
Qed.

End OrchestratorFacts.

(** ** Reporter *)

Section ReporterFacts.
Context `{PyLib}.
Import Corrector Reporter Orchestrator.

Lemma insert_by_len_perm x l : insert_by_len x l ≡ₚ x :: l.
Proof.
  induction l as [|y l IH]; simpl; [done|].
  destruct (len x <=? len y)%nat; [done|].
  rewrite IH. apply Permutation_swap.
Qed.

Lemma sort_by_len_perm l : sort_by_len l ≡ₚ l.
Proof.
  induction l as [|x l IH]; simpl; [done|].
  rewrite insert_by_len_perm. by rewrite IH.
Qed.

Lemma insert_by_len_sorted x l :
  StronglySorted shorter l → StronglySorted shorter (insert_by_len x l).
Proof.
  induction 1 as [|y l Hs IH Hy]; simpl.
  - repeat constructor.
  - destruct (len x <=? len y)%nat eqn:Hxy.
    + apply Nat.leb_le in Hxy. constructor; [by constructor|].
      constructor; [done|]. eapply Forall_impl; [exact Hy|].
      unfold shorter in *. intros z Hz. lia.
    + apply Nat.leb_gt in Hxy. constructor; [done|].
      rewrite insert_by_len_perm. constructor; [unfold shorter; lia|done].
Qed.

Lemma sort_by_len_sorted l : StronglySorted shorter (sort_by_len l).
Proof.
  induction l as [|x l IH]; simpl; [constructor|]. by apply insert_by_len_sorted.
Qed.

(** Inserting does not reorder the sentences of any one length: the new
    one goes in front of those of its own length. *)
Lemma insert_by_len_stable n x l :
  of_len n (insert_by_len x l) = of_len n (x :: l).
Proof.
  unfold of_len. induction l as [|y l IH]; [done|].
  cbn [insert_by_len]. destruct (len x <=? len y)%nat eqn:Hxy; [done|].
  apply Nat.leb_gt in Hxy.
  cbn [List.filter] in *. rewrite IH.
  destruct (len x =? n)%nat eqn:Hx, (len y =? n)%nat eqn:Hy; try done.
  apply Nat.eqb_eq in Hx, Hy. lia.
Qed.

Lemma sort_by_len_stable n l : of_len n (sort_by_len l) = of_len n l.
Proof.
  induction l as [|x l IH]; [done|].
  cbn [sort_by_len foldr]. rewrite insert_by_len_stable.
  fold (sort_by_len l). unfold of_len in *. cbn [List.filter]. by rewrite IH.
Qed.

(** [rfind]: the position of the last occurrence. *)
Lemma rfind_from_spec c p : ∀ i found,
  ((c ∉ p) ∧ rfind_from i c p found = found)
  ∨ (∃ pre post, p = pre ++ c :: post ∧ (c ∉ post)
                 ∧ rfind_from i c p found = i + Z.of_nat (length pre)).
Proof.
  induction p as [|x p IH]; intros i found; simpl.
  - left. split; [apply not_elem_of_nil|done].
  - destruct (IH (i + 1) (if x =? c then i else found))
      as [[Hnot ->]|(pre & post & -> & Hpost & ->)].
    + destruct (Z.eqb_spec x c) as [->|Hne].
      * right. exists [], p. simpl. split; [done|]. split; [done|]. lia.
      * left. split; [|done]. rewrite not_elem_of_cons. split; [congruence|done].
    + right. exists (x :: pre), post. simpl. split; [done|]. split; [done|]. lia.
Qed.

Lemma rfind_spec p c :
  ((c ∉ p) ∧ rfind p c = -1)
  ∨ (∃ pre post, p = pre ++ c :: post ∧ (c ∉ post) ∧ rfind p c = Z.of_nat (length pre)).
Proof. apply (rfind_from_spec c p 0 (-1)). Qed.

Lemma rfind_lower p c : -1 ≤ rfind p c.
Proof.
  destruct (rfind_spec p c) as [[_ ->]|(pre & post & _ & _ & ->)]; lia.
Qed.

(** [_splitext] cuts the path in two; the second part is empty or runs
    from the last extension separator to the end. *)
Lemma _splitext_spec p sep altsep extsep :
  ∃ root ext, _splitext p sep altsep extsep = (root, ext)
    ∧ root ++ ext = p
    ∧ (ext = [] ∨ ∃ post, ext = extsep :: post ∧ extsep ∉ post).
Proof.
  unfold _splitext.
  set (sepIndex := match altsep with
                   | Some a => Z.max (rfind p sep) (rfind p a)
                   | None => rfind p sep
                   end).
  assert (-1 ≤ sepIndex) as Hsep.
  { unfold sepIndex. pose proof (rfind_lower p sep).
    destruct altsep as [a|]; [|done]. pose proof (rfind_lower p a). lia. }
  destruct (sepIndex <? rfind p extsep) eqn:Hlt; simpl.
  2: { eexists _, _. split; [done|]. rewrite app_nil_r. split; [done|by left]. }
  destruct (has_non_dot _ _ _ _).
  2: { eexists _, _. split; [done|]. rewrite app_nil_r. split; [done|by left]. }
  apply Z.ltb_lt in Hlt.
  destruct (rfind_spec p extsep) as [[_ Hr]|(pre & post & -> & Hpost & Hr)]; [lia|].
  rewrite Hr, Nat2Z.id.
  eexists _, _. split; [done|]. split; [by rewrite take_drop|].
  right. exists post. rewrite drop_app_length. done.
Qed.

(** C8. With the sorted second pass requested, [report] writes, besides the
    first artifact, a second one at [insert_thing_into_filename "-sort" outfile]
    that holds the reported match set sorted by length: ascending, a
    permutation of the first artifact's sentences, and stable (the
    sentences of each length keep their order).  For lengths [5,3,5,1] the
    result has lengths [1,3,5,5] with the two sentences of length 5 in their
    original order.  The second path is the first with the marker put where
    [os.path.splitext] cuts it: before the extension, which is empty or
    starts at the last dot; [output.log] gives [output-sort.log]. *)
Theorem sorted_second_pass (a : Namespace) (matching : list ustring) (outfile : ustring)
    (w : world) :
  let reported := if ns_correct a then correct_those matching else matching in
  let outfile' := insert_thing_into_filename (u "-sort") outfile in
  (∃ w', report (Some a) matching outfile true w = (Ok tt, w')
         ∧ fs w' !! outfile' = Some (written (sort_by_len reported)))
  ∧ StronglySorted shorter (sort_by_len reported)
  ∧ sort_by_len reported ≡ₚ reported
  ∧ (∀ n, of_len n (sort_by_len reported) = of_len n reported)
  ∧ (let l := [u "aaaaa"; u "bbb"; u "ccccc"; u "d"] in
     len <$> l = [5; 3; 5; 1]%nat
     ∧ sort_by_len l = [u "d"; u "bbb"; u "aaaaa"; u "ccccc"]
     ∧ len <$> sort_by_len l = [1; 3; 5; 5]%nat)
  ∧ (∃ root ext, splitext outfile = (root, ext)
       ∧ root ++ ext = outfile
       ∧ outfile' = root ++ u "-sort" ++ ext
       ∧ (ext = [] ∨ ∃ post, ext = 46 :: post ∧ 46 ∉ post))
  ∧ @insert_thing_into_filename Double.lib (u "-sort") (u "output.log")
    = u "output-sort.log".
Proof.
  intros reported outfile'.
  split.
  { rewrite report_bound. fold reported. fold outfile'.
    eexists. split; [reflexivity|]. simpl. apply lookup_insert_eq. }
  split; [apply sort_by_len_sorted|].
  split; [apply sort_by_len_perm|].
  split; [intros n; apply sort_by_len_stable|].
  split; [by repeat split|].
  split; [|reflexivity].
  unfold outfile', insert_thing_into_filename, splitext.
  destruct (_splitext_spec outfile os_sep os_altsep 46) as (root & ext & -> & Hjoin & Hext).
  by exists root, ext.
Qed.

End ReporterFacts.

(** ** A file that does not decode *)

Section DecodeFailure.
Context `{PyLib}.
Import Cache Loader Matcher Corrector Reporter Orchestrator.

Lemma load_cache_world filename w : (load_cache filename w).2 = w.
Proof.
  unfold load_cache. destruct (fs w !! filename) as [content|]; [|done].
  by destruct (pickle_loads content).
Qed.

(** The corpus is the same with and without the file in the list. *)
Lemma obtain_sentences_skip before filename content after cache w :
  fs w !! filename = Some content →
  codecs_decode_cp1252 content = None →
  obtain_sentences (Some (before ++ filename :: after)) cache w
  = obtain_sentences (Some (before ++ after)) cache w.
Proof.
  intros Hf Hd. unfold obtain_sentences, load_sentences_from_files. monad_unfold.
  destruct cache.
  - pose proof (load_cache_world SENTENCES_CACHE w) as Hw.
    destruct (load_cache SENTENCES_CACHE w) as [[[[|s l]|]|e] w1]; simpl in Hw; subst w1;
      try done; simpl; by rewrite (load_loop_skip before filename content after).
  - simpl. by rewrite (load_loop_skip before filename content after).
Qed.

(** Readable files, a tokenizer at hand and a cache file that unpickles (if
    there is one and it is asked for): the corpus is obtained. *)
Lemma obtain_sentences_total files cache w :
  (∀ f, f ∈ files → is_Some (fs w !! f)) →
  tokenizer_available w →
  (∀ content, cache = true → fs w !! SENTENCES_CACHE = Some content →
              is_Some (pickle_loads content)) →
  ∃ sentences w', obtain_sentences (Some files) cache w = (Ok sentences, w').
Proof.
  intros Hread Hav Hcache.
  destruct (load_loop_total files [] w Hread Hav) as (ss & w1 & Hloop & _).
  unfold obtain_sentences, load_sentences_from_files. monad_unfold.
  destruct cache.
  - unfold load_cache. destruct (fs w !! SENTENCES_CACHE) as [content|] eqn:Hc.
    + destruct (Hcache content) as [data Hdata]; [done..|]. rewrite Hdata.
      destruct data as [|s l]; [|by eexists _, _].
      rewrite Hloop. by eexists _, _.
    + rewrite Hloop. by eexists _, _.
  - rewrite Hloop. by eexists _, _.
Qed.

(** A pattern that compiles and a bound [args]: the pipeline from the
    corpus on returns, and the output file is there. *)
Lemma match_and_report_total (a : Namespace) sentences regex outfile ignore_case sort w :
  is_Some (re_compile regex (re_flags ignore_case)) →
  ∃ w', match_and_report (Some a) sentences regex outfile ignore_case sort w = (Ok tt, w')
        ∧ is_Some (fs w' !! outfile).
Proof.
  intros [p Hp]. unfold match_and_report, find_matching_sentences.
  rewrite (match_loop_compiled _ _ p) by done.
  unfold bind at 1. unfold lift_res. rewrite report_bound.
  destruct sort.
  - eexists. split; [reflexivity|]. simpl.
    rewrite lookup_insert_is_Some'. right. rewrite lookup_insert_eq. by eexists.
  - eexists. split; [reflexivity|]. simpl. rewrite lookup_insert_eq. by eexists.
Qed.

(** C7. A file of the glob's result whose bytes do not decode under cp1252:
    [find_sentences_in_text] returns no sentence for it and raises nothing;
    [load_sentences_from_files] returns what it returns for the other files
    alone; the whole run is the run on the other files, with or without the
    cache flag; and when the other files can be read, a tokenizer is at
    hand, the pattern compiles, [args] is bound and the cache file (if
    used) unpickles, the run returns normally and has written its output
    file. *)
Theorem undecodable_file_is_skipped (a : Namespace) regex spec outfile ignore_case sort
    cache correct before filename after content w :
  nonempty spec = true →
  glob_glob spec = before ++ filename :: after →
  fs w !! filename = Some content →
  codecs_decode_cp1252 content = None →
  find_sentences_in_text filename w = (Ok [], w)
  ∧ load_sentences_from_files (before ++ filename :: after) w
    = load_sentences_from_files (before ++ after) w
  ∧ (∀ args,
       gutengrep args regex (Some spec) outfile ignore_case sort cache correct w
       = gutengrep_from args (Some (before ++ after)) regex outfile ignore_case sort cache w)
  ∧ ((∀ f, f ∈ before ++ after → is_Some (fs w !! f)) →
     tokenizer_available w →
     is_Some (re_compile regex (re_flags ignore_case)) →
     (∀ record, cache = true → fs w !! SENTENCES_CACHE = Some record →
                is_Some (pickle_loads record)) →
     ∃ w', gutengrep (Some a) regex (Some spec) outfile ignore_case sort cache correct w
           = (Ok tt, w')
           ∧ is_Some (fs w' !! outfile)).
Proof.
  intros Hs Hg Hf Hd.
  assert (∀ args,
       gutengrep args regex (Some spec) outfile ignore_case sort cache correct w
       = gutengrep_from args (Some (before ++ after)) regex outfile ignore_case sort cache w)
    as Hrun.
  { intros args. unfold gutengrep. unfold bind at 1.
    rewrite resolve_files_found; [|done|rewrite Hg; by destruct before].
    rewrite Hg. unfold gutengrep_from. unfold bind.
    by rewrite (obtain_sentences_skip before filename content after). }
  split; [by eapply find_sentences_in_text_undecodable|].
  split; [by eapply load_loop_skip|].
  split; [exact Hrun|].
  intros Hread Hav Hre Hcache. rewrite Hrun.
  unfold gutengrep_from. unfold bind.
  destruct (obtain_sentences_total (before ++ after) cache w Hread Hav Hcache)
    as (sentences & w1 & ->).
  by apply match_and_report_total.
Qed.

End DecodeFailure.

(** ** Runs on the stand-in *)

Section Runs.
#[local] Existing Instance Double.lib.
Import Cache Loader Matcher Corrector Reporter Orchestrator Double.

(** C6 at work: [*.pdf] matches no file. *)
Lemma gutengrep_no_input_files_witness :
  gutengrep (Some cli) (u "whale") (Some (u "*.pdf")) (u "output.log")
    false true true true (initial cached_disk)
  = (Raise (SystemExit (u "No input files found matching *.pdf")), initial cached_disk).
Proof.
  exact (proj1 (gutengrep_no_input_files (Some cli) (u "whale") (u "*.pdf") (u "output.log")
                  false true true true (initial cached_disk) eq_refl eq_refl)).
Defined.

(** C9 at work: the cache flag, no inspec, no cache file on the disk. *)
Lemma gutengrep_cache_without_inspec_witness :
  gutengrep (Some cli) (u "whale") None (u "output.log") false true true true (initial disk)
  = (Raise (UnboundLocalError (u "files")), initial disk).
Proof.
  exact (proj1 (proj2 (gutengrep_cache_without_inspec (Some cli) (u "whale") None
                         (u "output.log") false true true (initial disk)
                         eq_refl (or_introl eq_refl)))).
Defined.

(** C2 at work: a cache of three sentences, and an inspec that matches
    files. *)
Lemma gutengrep_uses_cache_witness :
  (∀ files, obtain_sentences files true (initial cached_disk)
            = (Ok disk_sentences, initial cached_disk))
  ∧ gutengrep (Some cli) (u "whale") (Some (u "*.txt")) (u "output.log")
      false true true true (initial cached_disk)
    = match_and_report (Some cli) disk_sentences (u "whale") (u "output.log") false true
        (initial cached_disk).
Proof.
  apply (gutengrep_uses_cache (Some cli) (u "whale") (Some (u "*.txt")) (u "output.log")
           false true true (dumps disk_sentences)).
  - reflexivity.
  - reflexivity.
  - intros spec Hspec _. injection Hspec as <-. discriminate.
Defined.

(** C2, refuted as stated, twice.  A cache record of three sentences
    exists and the cache flag is set, but the inspec [*.pdf] globs to no
    file: the run exits with the configuration error and the cached corpus
    is never used.  And a cache record that is the empty list exists: the
    corpus of the run is not that record but the three sentences of the
    files, which the load pass read. *)
Lemma gutengrep_cache_not_unconditional :
  (load_cache SENTENCES_CACHE (initial cached_disk)
     = (Ok (Some disk_sentences), initial cached_disk)
   ∧ glob_glob (u "*.pdf") = []
   ∧ gutengrep (Some cli) (u "whale") (Some (u "*.pdf")) (u "output.log")
       false true true true (initial cached_disk)
     = (Raise (SystemExit (u "No input files found matching *.pdf")), initial cached_disk)
   ∧ gutengrep (Some cli) (u "whale") (Some (u "*.pdf")) (u "output.log")
       false true true true (initial cached_disk)
     ≠ match_and_report (Some cli) disk_sentences (u "whale") (u "output.log") false true
         (initial cached_disk))
  ∧ (load_cache SENTENCES_CACHE (initial empty_cached_disk)
       = (Ok (Some []), initial empty_cached_disk)
     ∧ (obtain_sentences (Some (glob_glob (u "*.txt"))) true (initial empty_cached_disk)).1
       = Ok disk_sentences
     ∧ (obtain_sentences (Some (glob_glob (u "*.txt"))) true (initial empty_cached_disk)).1
       ≠ Ok []
     ∧ TOKENIZER (obtain_sentences (Some (glob_glob (u "*.txt"))) true
                    (initial empty_cached_disk)).2 = Some split_tokenizer).
Proof.
  split.
  - split; [reflexivity|]. split; [reflexivity|]. split; [reflexivity|].
    vm_compute. intros Hx. discriminate Hx.
  - split; [reflexivity|]. split; [vm_compute; reflexivity|].
    split; [vm_compute; intros Hx; discriminate Hx|]. reflexivity.
Qed.

(** C7 at work: [bad.txt], between [a.txt] and [b.txt], holds the byte 0x81. *)
Lemma undecodable_file_is_skipped_witness :
  load_sentences_from_files txt_files (initial disk)
  = load_sentences_from_files [u "a.txt"; u "b.txt"] (initial disk)
  ∧ ∃ w', gutengrep (Some cli) (u "whale") (Some (u "*.txt")) (u "output.log")
            false true false true (initial disk) = (Ok tt, w')
          ∧ is_Some (fs w' !! u "output.log").
Proof.
  destruct (undecodable_file_is_skipped cli (u "whale") (u "*.txt") (u "output.log")
              false true false true [u "a.txt"] (u "bad.txt") [u "b.txt"]
              (u "A whale " ++ [0x81] ++ u " here.") (initial disk))
    as (_ & Hload & _ & Hrun); [reflexivity..|].
  split; [exact Hload|]. apply Hrun.
  - intros f Hin. apply list_elem_of_In in Hin.
    destruct Hin as [<-|[<-|[]]]; vm_compute; eauto.
  - right. simpl. eauto.
  - vm_compute. eauto.
  - intros record Hc. discriminate Hc.
Defined.

(** C10 at work: a direct call with [args] unbound, on files that load and
    a pattern that matches two sentences. *)
Lemma gutengrep_reads_global_args_witness :
  gutengrep None (u "whale") (Some (u "*.txt")) (u "output.log") false true false
    true (initial disk)
  = (Raise (NameError (u "args")),
     {| fs := disk; TOKENIZER := Some split_tokenizer |})
  ∧ gutengrep None (u "whale") (Some (u "*.txt")) (u "output.log") false true false
      false (initial disk)
    = (Raise (NameError (u "args")),
       {| fs := disk; TOKENIZER := Some split_tokenizer |}).
Proof.
  pose proof (gutengrep_reads_global_args (u "whale") (Some (u "*.txt"))
                (u "output.log") false true false
                [u "The whale swam."; u "'Thar she blows!' cried a whale."]
                (initial disk)
                {| fs := disk; TOKENIZER := Some split_tokenizer |}
                eq_refl) as (_ & Hunbound & _).
  split; apply Hunbound.
Defined.

(** The command line [cli] on the disk: the run returns, and both artifacts
    hold the two sentences with [whale], the second one with the closing
    quote that the corrector added; the shorter sentence is first in both. *)
Example main_cli_run :
  let outcome := main cli (initial disk) in
  let reported :=
    utf8_encode (u "The whale swam." ++ [10; 10]
                 ++ u "'Thar she blows!' cried a whale.'" ++ [10; 10]) in
  outcome.1 = Ok tt
  ∧ fs outcome.2 !! u "output.log" = Some reported
  ∧ fs outcome.2 !! u "output-sort.log" = Some reported
  ∧ fs outcome.2 !! SENTENCES_CACHE = None.
Proof. vm_compute. repeat split; reflexivity. Qed.

End Runs.

(** * Further properties of the code *)

(** ** Corrector: what [correct_those] does to a sentence *)

Section CorrectorShape.
Import Corrector.

Lemma startswith_nil q : startswith [] [q] = false.
Proof. reflexivity. Qed.

Lemma endswith_nil q : endswith [] [q] = false.
Proof. reflexivity. Qed.

Lemma startswith_prepend q (s : ustring) q' : startswith ([q] ++ s) [q'] = (q =? q').
Proof. simpl. apply andb_true_r. Qed.

Lemma endswith_append (s : ustring) q q' : endswith (s ++ [q]) [q'] = (q =? q').
Proof.
  unfold endswith. rewrite reverse_snoc. change (reverse [q']) with [q'].
  simpl. apply andb_true_r.
Qed.

Lemma startswith_append (s : ustring) q q' :
  s ≠ [] → startswith (s ++ [q]) [q'] = startswith s [q'].
Proof. by destruct s. Qed.

Lemma endswith_prepend q (s : ustring) q' :
  s ≠ [] → endswith ([q] ++ s) [q'] = endswith s [q'].
Proof.
  intros Hne. destruct s as [|d s _] using rev_ind; [done|].
  rewrite app_assoc. by rewrite !endswith_append.
Qed.

(** A sentence starts with one character and ends with one. *)
Lemma startswith_unique (s : ustring) q q' :
  startswith s [q] = true → startswith s [q'] = true → q = q'.
Proof.
  destruct s as [|c s]; [done|]. simpl. rewrite !andb_true_r. lia.
Qed.

Lemma endswith_unique (s : ustring) q q' :
  endswith s [q] = true → endswith s [q'] = true → q = q'.
Proof.
  destruct s as [|d s _] using rev_ind; [done|]. rewrite !endswith_append. lia.
Qed.

(** Case analysis on the four tests of the corrector; outside the case
    where all fail, the sentence is not empty. *)
Ltac four_tests s :=
  destruct (startswith s dquote) eqn:Hsd, (endswith s dquote) eqn:Hed,
    (startswith s squote) eqn:Hss, (endswith s squote) eqn:Hes;
  cbn [andb negb];
  try (by pose proof (startswith_unique s 34 39 Hsd Hss));
  try (by pose proof (endswith_unique s 34 39 Hed Hes));
  try (assert (s ≠ []) as Hne
         by (intros ->; unfold dquote, squote in *;
             rewrite ?startswith_nil, ?endswith_nil in *; congruence)).

Ltac ends_rewrite :=
  unfold dquote, squote in *;
  rewrite ?startswith_prepend, ?endswith_append;
  rewrite ?startswith_append, ?endswith_prepend by assumption.

Lemma corrected_balanced (s : ustring) : balanced (corrected s) = true.
Proof.
  unfold corrected. four_tests s; unfold balanced; ends_rewrite;
    rewrite ?Hsd, ?Hed, ?Hss, ?Hes; reflexivity.
Qed.

Lemma corrected_fixes_balanced (s : ustring) : balanced s = true → corrected s = s.
Proof. unfold balanced, corrected. four_tests s; simpl; intros; done. Qed.

Lemma corrected_quote_added (s : ustring) : quote_added s (corrected s).
Proof. unfold quote_added, corrected. four_tests s; auto 10. Qed.

(** X1. [correct_those] returns as many sentences as it was given, in the
    same order, and each one is the input sentence itself or that sentence
    with exactly one quote character added, in front or at the end: nothing
    is removed, and no sentence gains two characters. *)
Theorem correct_those_adds_at_most_one_quote (sentences : list ustring) :
  length (correct_those sentences) = length sentences
  ∧ Forall2 quote_added sentences (correct_those sentences).
Proof.
  rewrite correct_those_map. split; [apply length_fmap|].
  induction sentences as [|s sentences IH]; simpl; constructor;
    [apply corrected_quote_added|exact IH].
Qed.

(** X2. Every sentence that [correct_those] returns is balanced: it starts
    with the double quote exactly when it ends with it, and the same for
    the single quote. *)
Theorem correct_those_balances (sentences : list ustring) :
  Forall (λ s, balanced s = true) (correct_those sentences).
Proof.
  rewrite correct_those_map. apply Forall_fmap, Forall_true.
  intros s. apply corrected_balanced.
Qed.

(** X3. Correcting twice is the same as correcting once. *)
Theorem correct_those_idempotent (sentences : list ustring) :
  correct_those (correct_those sentences) = correct_those sentences.
Proof.
  rewrite !correct_those_map. rewrite <- list_fmap_compose.
  apply list_fmap_ext. intros _ s _. simpl.
  apply corrected_fixes_balanced, corrected_balanced.
Qed.

(** X4. The lists that [correct_those] leaves as they are are exactly the
    lists of balanced sentences: a sentence is changed if and only if one of
    the two quote characters is at one of its ends and not at the other. *)
Theorem correct_those_unchanged_iff_balanced (sentences : list ustring) :
  correct_those sentences = sentences ↔ Forall (λ s, balanced s = true) sentences.
Proof.
  rewrite correct_those_map. split.
  - intros Hfix. rewrite <- Hfix. apply Forall_fmap, Forall_true.
    intros s. apply corrected_balanced.
  - induction 1 as [|s sentences Hs _ IH]; [done|].
    rewrite fmap_cons. by rewrite IH, corrected_fixes_balanced.
Qed.

End CorrectorShape.

(** ** Matcher: concatenation and repetition *)

Section MatcherMore.
Context `{PyLib}.
Import Matcher.

Lemma filter_filter (p : pattern) (l : list ustring) :
  List.filter p (List.filter p l) = List.filter p l.
Proof.
  induction l as [|s l IH]; [done|]. simpl.
  destruct (p s) eqn:Hs; [|done]. simpl. by rewrite Hs, IH.
Qed.

Lemma find_matching_sentences_cases regex sentences flags :
  (∃ p, re_compile regex flags = Some p
        ∧ find_matching_sentences regex sentences flags = Ok (List.filter p sentences))
  ∨ (re_compile regex flags = None
     ∧ find_matching_sentences regex sentences flags
       = match sentences with [] => Ok [] | _ :: _ => Raise re_error end).
Proof.
  unfold find_matching_sentences.
  destruct (re_compile regex flags) as [p|] eqn:Hp.
  - left. exists p. split; [done|]. by rewrite (match_loop_compiled _ _ p).
  - right. split; [done|]. destruct sentences; [done|]. by apply match_loop_invalid.
Qed.

(** X5. Matching two corpora one after the other and joining the results
    is matching the joined corpus: when both parts are matched without
    error, the match set of [first ++ second] is the match set of [first]
    followed by that of [second]. *)
Theorem find_matching_sentences_app regex first second flags matching1 matching2 :
  find_matching_sentences regex first flags = Ok matching1 →
  find_matching_sentences regex second flags = Ok matching2 →
  find_matching_sentences regex (first ++ second) flags = Ok (matching1 ++ matching2).
Proof.
  intros H1 H2.
  destruct (find_matching_sentences_cases regex first flags) as [(p & Hp & E1)|[Hp E1]],
    (find_matching_sentences_cases regex second flags) as [(p' & Hp' & E2)|[Hp' E2]];
    try congruence.
  - destruct (find_matching_sentences_cases regex (first ++ second) flags)
      as [(q & Hq & E)|[Hq E]]; [|congruence].
    rewrite E. rewrite List.filter_app.
    replace q with p in * by congruence. replace p' with p in * by congruence.
    congruence.
  - destruct first; [|congruence]. destruct second; [|congruence].
    assert (matching1 = []) as -> by congruence.
    assert (matching2 = []) as -> by congruence. exact E1.
Qed.

(** X6. Matching a match set again with the same pattern and flags returns
    it unchanged. *)
Theorem find_matching_sentences_again regex sentences flags matching :
  find_matching_sentences regex sentences flags = Ok matching →
  find_matching_sentences regex matching flags = Ok matching.
Proof.
  intros Hm.
  destruct (find_matching_sentences_cases regex sentences flags) as [(p & Hp & E)|[Hp E]].
  - destruct (find_matching_sentences_cases regex matching flags)
      as [(q & Hq & E')|[Hq E']]; [|congruence].
    replace q with p in * by congruence.
    rewrite E'. replace matching with (List.filter p sentences) by congruence.
    by rewrite filter_filter.
  - destruct sentences; [|congruence]. by replace matching with (@nil ustring) by congruence.
Qed.

End MatcherMore.

(** ** Loader: order, the tokenizer global, unreadable files *)

Section LoaderMore.
Context `{PyLib}.
Import Loader.

(** The loop over a list in two parts is the loop over the first part
    followed, if it returned, by the loop over the second. *)
Lemma load_loop_app first second acc w :
  load_loop (first ++ second) acc w =
    match load_loop first acc w with
    | (Ok acc', w1) => load_loop second acc' w1
    | (Raise e, w1) => (Raise e, w1)
    end.
Proof.
  revert acc w. induction first as [|f first IH]; intros acc w; simpl; [done|].
  unfold bind. destruct (find_sentences_in_text f w) as [[ss|e] w1]; [apply IH|done].
Qed.

Lemma tokenize_effective t text w :
  effective_tokenizer w = Some t →
  ∃ w', tokenize text w = (Ok (t text), w')
        ∧ fs w' = fs w ∧ effective_tokenizer w' = Some t.
Proof.
  unfold effective_tokenizer, tokenize. intros Ht.
  destruct (TOKENIZER w) as [t'|] eqn:Hw.
  - injection Ht as ->. exists w. by rewrite Hw.
  - rewrite Ht. by eexists.
Qed.

Lemma find_sentences_in_text_effective t filename w :
  is_Some (fs w !! filename) →
  effective_tokenizer w = Some t →
  ∃ w', find_sentences_in_text filename w = (Ok (file_sentences t (fs w) filename), w')
        ∧ fs w' = fs w ∧ effective_tokenizer w' = Some t.
Proof.
  intros [content Hc] Ht. unfold find_sentences_in_text, file_sentences. rewrite Hc.
  destruct (codecs_decode_cp1252 content) as [text|].
  - by apply tokenize_effective.
  - by exists w.
Qed.

Lemma load_loop_effective t files acc w :
  (∀ f, f ∈ files → is_Some (fs w !! f)) →
  effective_tokenizer w = Some t →
  ∃ w', load_loop files acc w
          = (Ok (acc ++ mjoin (file_sentences t (fs w) <$> files)), w')
        ∧ fs w' = fs w ∧ effective_tokenizer w' = Some t.
Proof.
  revert acc w. induction files as [|f files IH]; intros acc w Hread Ht; simpl.
  - exists w. by rewrite app_nil_r.
  - unfold bind.
    destruct (find_sentences_in_text_effective t f w) as (w1 & -> & Hfs1 & Ht1);
      [apply Hread; by left|done|].
    destruct (IH (acc ++ file_sentences t (fs w) f) w1) as (w' & -> & Hfs' & Ht');
      [intros g Hg; rewrite Hfs1; apply Hread; by right|done|].
    exists w'. rewrite Hfs1, <- app_assoc. split; [done|]. split; [congruence|done].
Qed.

(** X7. When every listed file can be opened and a tokenizer is loaded or
    loadable, [load_sentences_from_files] returns the sentences of the
    first file, then those of the second, and so on (a file that does not
    decode contributing none), and leaves the files as they were. *)
Theorem load_sentences_from_files_in_order t files w :
  (∀ f, f ∈ files → is_Some (fs w !! f)) →
  effective_tokenizer w = Some t →
  ∃ w', load_sentences_from_files files w
          = (Ok (mjoin (file_sentences t (fs w) <$> files)), w')
        ∧ fs w' = fs w
        ∧ effective_tokenizer w' = Some t.
Proof. intros Hread Ht. apply (load_loop_effective t files [] w Hread Ht). Qed.

Lemma find_sentences_in_text_tokenizer filename w :
  let w' := (find_sentences_in_text filename w).2 in
  fs w' = fs w
  ∧ match TOKENIZER w with
    | Some t => w' = w
    | None => TOKENIZER w' = None ∨ TOKENIZER w' = nltk_data_load
    end.
Proof.
  split; [apply find_sentences_in_text_fs|].
  unfold find_sentences_in_text, tokenize.
  destruct (fs w !! filename) as [content|].
  2: { destruct (TOKENIZER w) eqn:Hw; [done|by left]. }
  destruct (codecs_decode_cp1252 content) as [text|].
  2: { destruct (TOKENIZER w) eqn:Hw; [done|by left]. }
  destruct (TOKENIZER w) eqn:Hw; [done|].
  destruct nltk_data_load; simpl; [by right|by left].
Qed.

(** What a load does to the world, whether it returns or raises. *)
Lemma load_sentences_from_files_world files w :
  let w' := (load_sentences_from_files files w).2 in
  fs w' = fs w
  ∧ match TOKENIZER w with
    | Some t => w' = w
    | None => TOKENIZER w' = None ∨ TOKENIZER w' = nltk_data_load
    end.
Proof.
  unfold load_sentences_from_files. generalize (@nil ustring) as acc. revert w.
  induction files as [|f files IH]; intros w acc; simpl.
  - split; [done|]. destruct (TOKENIZER w) eqn:Hw; [done|by left].
  - unfold bind.
    pose proof (find_sentences_in_text_tokenizer f w) as [Hfs Htok].
    destruct (find_sentences_in_text f w) as [[ss|e] w1]; simpl in *.
    + destruct (IH w1 (acc ++ ss)) as [Hfs' Htok'].
      split; [congruence|].
      destruct (TOKENIZER w) as [t|] eqn:Hw.
      * subst w1. by rewrite Hw in Htok'.
      * destruct (TOKENIZER w1) as [t1|] eqn:Hw1; [|done].
        rewrite Htok'. right. destruct Htok as [?|?]; congruence.
    + split; [done|]. exact Htok.
Qed.

(** X8. The loader never writes a file, and it loads the tokenizer at most
    once: when [TOKENIZER] is already set, loading any list of files leaves
    the whole world as it was (no second [nltk.data.load]); when it is not,
    afterwards it is still unset or holds what [nltk.data.load] returned.
    This holds whether the loader returns or raises. *)
Theorem load_sentences_from_files_tokenizer_once files w :
  let w' := (load_sentences_from_files files w).2 in
  fs w' = fs w
  ∧ match TOKENIZER w with
    | Some t => w' = w
    | None => TOKENIZER w' = None ∨ TOKENIZER w' = nltk_data_load
    end.
Proof. apply load_sentences_from_files_world. Qed.

(** X9. A listed path that cannot be opened stops the load with [IOError]
    for that path, unlike a file that fails to decode: the files before it
    have been read (their effect on the world stays), the files after it
    are not touched, and no corpus is returned. *)
Theorem load_sentences_from_files_unreadable before filename after sentences w w1 :
  load_sentences_from_files before w = (Ok sentences, w1) →
  fs w !! filename = None →
  load_sentences_from_files (before ++ filename :: after) w
  = (Raise (IOError filename), w1).
Proof.
  intros Hbefore Hf. unfold load_sentences_from_files in *.
  rewrite load_loop_app, Hbefore. simpl. unfold bind, find_sentences_in_text.
  pose proof (load_sentences_from_files_world before w) as [Hfs _].
  unfold load_sentences_from_files in Hfs. rewrite Hbefore in Hfs. simpl in Hfs.
  by rewrite Hfs, Hf.
Qed.

End LoaderMore.

(** ** Cache: what a save touches *)

Section CacheMore.
Context `{PyLib}.
Import Cache Loader Orchestrator.

(** X10. [load_cache] only reads: it leaves the world as it was, whatever
    it returns.  [save_cache] touches only its own path: a load from any
    other path gives the same result before and after the save.  And a
    save replaces what was saved before: saving one corpus and then another
    at the same path leaves the world that saving the second alone
    leaves. *)
Theorem save_cache_local filename other data data' w :
  (load_cache filename w).2 = w
  ∧ (other ≠ filename →
     (load_cache other (save_cache filename data w).2).1 = (load_cache other w).1)
  ∧ (save_cache filename data' (save_cache filename data w).2).2
    = (save_cache filename data' w).2.
Proof.
  split; [apply load_cache_world|]. split.
  - intros Hne. unfold load_cache, save_cache, set_fs. simpl.
    rewrite lookup_insert_ne by done.
    destruct (fs w !! other) as [content|]; [|done].
    by destruct (pickle_loads content).
  - unfold save_cache, set_fs. simpl. by rewrite insert_insert_eq.
Qed.

(** X11. A cache miss fills the cache for the next call: when the cache
    flag is set and there is no cache file (or its record is the empty
    list) and the corpus is then obtained from the files, the cache file
    afterwards holds the pickled corpus; and if that corpus has at least
    one sentence and [pickle] restores it, obtaining the corpus again in
    the resulting world returns the same corpus without reading any file,
    whatever files are asked for. *)
Theorem obtain_sentences_miss_then_hit files files' corpus w w1 :
  fs w !! SENTENCES_CACHE = None
  ∨ (∃ content, fs w !! SENTENCES_CACHE = Some content ∧ pickle_loads content = Some []) →
  obtain_sentences files true w = (Ok corpus, w1) →
  fs w1 !! SENTENCES_CACHE = Some (pickle_dumps corpus)
  ∧ (corpus ≠ [] →
     pickle_loads (pickle_dumps corpus) = Some corpus →
     obtain_sentences files' true w1 = (Ok corpus, w1)).
Proof.
  intros Hmiss Hrun. rewrite obtain_sentences_miss in Hrun by done.
  monad_unfold. destruct files as [files|]; [|done].
  destruct (load_sentences_from_files files w) as [[ss|e] w2]; [|done].
  unfold save_cache in Hrun. injection Hrun as <- <-.
  assert (fs (set_fs <[SENTENCES_CACHE:=pickle_dumps ss]> w2) !! SENTENCES_CACHE
          = Some (pickle_dumps ss)) as Hsaved by apply lookup_insert_eq.
  split; [exact Hsaved|].
  intros Hne Hrt. destruct ss as [|s l]; [done|].
  by apply (obtain_sentences_hit files' (pickle_dumps (s :: l)) s l).
Qed.

End CacheMore.

(** ** Orchestrator: configuration errors, failures and the files a run
    writes *)

Section OrchestratorMore.
Context `{PyLib}.
Import Cache Loader Matcher Corrector Reporter Orchestrator.

(** What the two configuration checks let through. *)
Lemma resolve_files_cases inspec cache w :
  (resolve_files inspec cache w).2 = w
  ∧ match (resolve_files inspec cache w).1 with
    | Ok None => given inspec = false ∧ cache = true
    | Ok (Some files) =>
        ∃ spec, inspec = Some spec ∧ files = glob_glob spec ∧ files ≠ []
    | Raise e =>
        (e = SystemExit (u "Error: inspec and/or cache arguments needed")
         ∧ given inspec = false ∧ cache = false)
        ∨ (∃ spec, inspec = Some spec ∧ glob_glob spec = []
                   ∧ e = SystemExit (u "No input files found matching " ++ spec))
    end.
Proof.
  unfold resolve_files. monad_unfold.
  destruct inspec as [[|c spec]|], cache; simpl; try (split; [done|]; auto; fail).
  - destruct (glob_glob (c :: spec)) as [|f files] eqn:Hg; simpl.
    + split; [done|]. right. by exists (c :: spec).
    + split; [done|]. exists (c :: spec). by rewrite Hg.
  - destruct (glob_glob (c :: spec)) as [|f files] eqn:Hg; simpl.
    + split; [done|]. right. by exists (c :: spec).
    + split; [done|]. exists (c :: spec). by rewrite Hg.
Qed.

(** X12. Without an inspec (absent or empty) and without the cache flag, the
    run ends at once in [sys.exit] with the message that one of the two is
    needed, and nothing has been read or written. *)
Theorem gutengrep_needs_inspec_or_cache args regex inspec outfile ignore_case sort
    correct w :
  given inspec = false →
  gutengrep args regex inspec outfile ignore_case sort false correct w
  = (Raise (SystemExit (u "Error: inspec and/or cache arguments needed")), w).
Proof.
  intros Hg. unfold gutengrep, resolve_files. monad_unfold. by rewrite Hg.
Qed.

(** Obtaining the corpus writes at most the cache file, and only with the
    cache flag. *)
Lemma obtain_sentences_fs files cache w :
  let w' := (obtain_sentences files cache w).2 in
  (∀ path, path ≠ SENTENCES_CACHE → fs w' !! path = fs w !! path)
  ∧ (cache = false → fs w' = fs w).
Proof.
  unfold obtain_sentences. monad_unfold.
  assert (∀ l, fs (load_sentences_from_files l w).2 = fs w) as Hload.
  { intros l. apply (load_sentences_from_files_world l w). }
  destruct cache.
  - pose proof (load_cache_world SENTENCES_CACHE w) as Hw.
    destruct (load_cache SENTENCES_CACHE w) as [[[[|s l]|]|e] w1]; simpl in Hw; subst w1;
      simpl; try done;
      (destruct files as [files|]; simpl; [|done]; specialize (Hload files);
       destruct (load_sentences_from_files files w) as [[ss|e] w2]; simpl in *;
       [|by rewrite Hload]; split; [|done];
       intros path Hpath; rewrite lookup_insert_ne by done; by rewrite Hload).
  - simpl. destruct files as [files|]; simpl; [|done]. specialize (Hload files).
    destruct (load_sentences_from_files files w) as [[ss|e] w2]; simpl in *;
      by rewrite Hload.
Qed.

Lemma matched_fs regex inspec ignore_case cache w :
  let w' := (matched regex inspec ignore_case cache w).2 in
  (∀ path, path ≠ SENTENCES_CACHE → fs w' !! path = fs w !! path)
  ∧ (cache = false → fs w' = fs w).
Proof.
  unfold matched. monad_unfold.
  pose proof (resolve_files_cases inspec cache w) as [Hw _].
  destruct (resolve_files inspec cache w) as [[files|e] w0]; simpl in Hw; subst w0;
    [|done].
  pose proof (obtain_sentences_fs files cache w) as Hfs.
  destruct (obtain_sentences files cache w) as [[sentences|e] w1]; [|exact Hfs].
  by destruct (find_matching_sentences regex sentences (re_flags ignore_case)).
Qed.

(** X13. A run writes nothing but the cache file, the output file and the
    sorted output file: whatever its outcome, every other path holds
    afterwards what it held before (the input files in particular, unless
    one of them is named as an output). *)
Theorem gutengrep_writes_only_its_files args regex inspec outfile ignore_case sort cache
    correct w path :
  path ≠ SENTENCES_CACHE →
  path ≠ outfile →
  path ≠ insert_thing_into_filename (u "-sort") outfile →
  fs (gutengrep args regex inspec outfile ignore_case sort cache correct w).2 !! path
  = fs w !! path.
Proof.
  intros Hc Ho Hs. rewrite gutengrep_matched. unfold bind.
  pose proof (matched_fs regex inspec ignore_case cache w) as [Hfs _].
  destruct (matched regex inspec ignore_case cache w) as [[matching|e] w1];
    simpl in Hfs; [|by apply Hfs].
  destruct args as [a|]; [|by apply Hfs].
  rewrite report_bound. destruct sort; simpl.
  - rewrite !lookup_insert_ne by done. by apply Hfs.
  - rewrite lookup_insert_ne by done. by apply Hfs.
Qed.

(** X14. Every failure comes before the first write of an output: when the
    run ends in an exception ([SystemExit] included), no path other than
    the cache file has changed, so neither output file has been created or
    truncated (unless it is the cache path itself); and without the cache
    flag the files are exactly as they were. *)
Theorem gutengrep_failure_writes_no_output args regex inspec outfile ignore_case sort
    cache correct w e w' :
  gutengrep args regex inspec outfile ignore_case sort cache correct w = (Raise e, w') →
  (∀ path, path ≠ SENTENCES_CACHE → fs w' !! path = fs w !! path)
  ∧ (cache = false → fs w' = fs w).
Proof.
  rewrite gutengrep_matched. unfold bind.
  pose proof (matched_fs regex inspec ignore_case cache w) as Hfs.
  destruct (matched regex inspec ignore_case cache w) as [[matching|e1] w1];
    simpl in Hfs.
  - destruct args as [a|].
    + rewrite report_bound. by destruct sort.
    + rewrite report_unbound. by intros [= <- <-].
  - by intros [= <- <-].
Qed.

End OrchestratorMore.

Section OrchestratorFailures.
Context `{PyLib}.
Import Cache Loader Matcher Corrector Reporter Orchestrator.

(** X15. A pattern that does not compile is noticed only when there is a
    sentence to search: on a corpus of at least one sentence the run stops
    with [re.error] before anything is written, but on the empty corpus no
    search happens, so the run goes on to report and, with [args] bound,
    returns normally with an empty output file. *)
Theorem match_and_report_invalid_pattern (a : Namespace) corpus regex outfile ignore_case w :
  re_compile regex (re_flags ignore_case) = None →
  (corpus ≠ [] →
   ∀ args sort, match_and_report args corpus regex outfile ignore_case sort w
                = (Raise re_error, w))
  ∧ (corpus = [] →
     match_and_report (Some a) corpus regex outfile ignore_case false w
     = (Ok tt, set_fs (<[outfile := []]>) w)).
Proof.
  intros Hp. split.
  - intros Hne args sort. unfold match_and_report, bind, lift_res.
    destruct corpus as [|s corpus]; [done|].
    unfold find_matching_sentences. by rewrite match_loop_invalid.
  - intros ->. unfold match_and_report, bind, lift_res. simpl.
    rewrite report_bound. by destruct (ns_correct a).
Qed.

Lemma find_sentences_in_text_raises filename w e w' :
  find_sentences_in_text filename w = (Raise e, w') →
  e = IOError filename ∨ (e = LookupError ∧ nltk_data_load = None).
Proof.
  unfold find_sentences_in_text, tokenize.
  destruct (fs w !! filename) as [content|]; [|intros [= <- _]; by left].
  destruct (codecs_decode_cp1252 content) as [text|]; [|done].
  destruct (TOKENIZER w); [done|].
  destruct nltk_data_load; [done|]. intros [= <- _]. by right.
Qed.

Lemma load_loop_raises files acc w e w' :
  load_loop files acc w = (Raise e, w') →
  (∃ f, f ∈ files ∧ e = IOError f) ∨ (e = LookupError ∧ nltk_data_load = None).
Proof.
  revert acc w. induction files as [|f files IH]; intros acc w; simpl; [done|].
  unfold bind.
  destruct (find_sentences_in_text f w) as [[ss|e1] w1] eqn:Hf.
  - intros Hrest. destruct (IH _ _ Hrest) as [(g & Hg & ->)|?]; [left|by right].
    exists g. split; [by right|done].
  - intros [= <- <-]. destruct (find_sentences_in_text_raises _ _ _ _ Hf) as [->|?];
      [left|by right]. exists f. split; [by left|done].
Qed.

Lemma obtain_sentences_raises files cache w e w' :
  obtain_sentences files cache w = (Raise e, w') →
  (e = UnpicklingError ∧ cache = true)
  ∨ (e = UnboundLocalError (u "files") ∧ files = None)
  ∨ (∃ l, files = Some l
          ∧ ((∃ f, f ∈ l ∧ e = IOError f) ∨ (e = LookupError ∧ nltk_data_load = None))).
Proof.
  unfold obtain_sentences, load_cache. monad_unfold.
  destruct cache; [destruct (fs w !! SENTENCES_CACHE) as [content|];
                   [destruct (pickle_loads content) as [[|s l]|]|]|]; simpl;
    try done; try (intros [= <- _]; by left);
    (destruct files as [l|]; [|intros [= <- _]; right; by left];
     destruct (load_sentences_from_files l w) as [[ss|e1] w1] eqn:Hl;
     [done|]; intros [= <- <-]; right; right; exists l; split; [done|];
     by apply (load_loop_raises l [] w e1 w1)).
Qed.

(** X16. The ways a run from the command line can fail.  With [args] bound
    the run never raises [NameError] for [args], and an exception tells
    what went wrong: [SystemExit] is one of the two configuration errors
    and leaves the world untouched; [UnboundLocalError] is the unassigned
    [files], and needs the cache flag without an inspec; [IOError] names a
    file of the glob's result; [LookupError] means the tokenizer resource
    is missing; the unpickling error needs the cache flag; [re.error] means
    the pattern does not compile. *)
Theorem gutengrep_failure_modes (a : Namespace) regex inspec outfile ignore_case sort cache
    correct w e w' :
  gutengrep (Some a) regex inspec outfile ignore_case sort cache correct w = (Raise e, w') →
  match e with
  | SystemExit msg =>
      w' = w
      ∧ ((msg = u "Error: inspec and/or cache arguments needed"
          ∧ given inspec = false ∧ cache = false)
         ∨ (∃ spec, inspec = Some spec ∧ glob_glob spec = []
                    ∧ msg = u "No input files found matching " ++ spec))
  | NameError _ => False
  | UnboundLocalError name =>
      name = u "files" ∧ given inspec = false ∧ cache = true
  | IOError path => ∃ spec, inspec = Some spec ∧ path ∈ glob_glob spec
  | LookupError => nltk_data_load = None
  | UnpicklingError => cache = true
  | re_error => re_compile regex (re_flags ignore_case) = None
  end.
Proof.
  unfold gutengrep, gutengrep_from, match_and_report. unfold bind at 1.
  pose proof (resolve_files_cases inspec cache w) as [Hw Hres].
  destruct (resolve_files inspec cache w) as [[files|e0] w0]; simpl in Hw, Hres; subst w0.
  - unfold bind at 1.
    destruct (obtain_sentences files cache w) as [[sentences|e1] w1] eqn:Hob.
    + unfold bind, lift_res.
      destruct (find_matching_sentences_cases regex sentences (re_flags ignore_case))
        as [(p & Hp & ->)|[Hp ->]].
      * rewrite report_bound. by destruct sort.
      * destruct sentences; [rewrite report_bound; by destruct sort|].
        by intros [= <- _].
    + intros [= <- <-].
      destruct (obtain_sentences_raises _ _ _ _ _ Hob)
        as [[-> ->]|[[-> ->]|(l & -> & [(f & Hf & ->)|[-> Hl]])]]; try done.
      destruct Hres as (spec & -> & -> & _). by exists spec.
  - intros [= <- <-]. destruct Hres as [(-> & ? & ?)|(spec & -> & ? & ->)].
    + split; [done|]. by left.
    + split; [done|]. right. by exists spec.
Qed.

End OrchestratorFailures.

(** ** Reporter: the two artifacts, the sort, line ends and paths *)

Section ReporterMore.
Context `{PyLib}.
Import Corrector Reporter Orchestrator.

Lemma insert_thing_into_filename_length thing filename :
  length (insert_thing_into_filename thing filename)
  = (length thing + length filename)%nat.
Proof.
  unfold insert_thing_into_filename, splitext.
  destruct (_splitext_spec filename os_sep os_altsep 46) as (root & ext & -> & <- & _).
  rewrite !length_app. lia.
Qed.

Lemma insert_thing_into_filename_differs filename :
  insert_thing_into_filename (u "-sort") filename ≠ filename.
Proof.
  intros Heq. apply (f_equal length) in Heq.
  rewrite insert_thing_into_filename_length in Heq. simpl in Heq. lia.
Qed.

(** X17. The sorted pass never overwrites the first artifact: the second
    path differs from the output path (it is longer by the marker), and
    after [report] with the sorted pass the output path still holds the
    sentences in corpus order while the second path holds them sorted. *)
Theorem report_keeps_first_artifact (a : Namespace) matching outfile w :
  let reported := if ns_correct a then correct_those matching else matching in
  let outfile' := insert_thing_into_filename (u "-sort") outfile in
  outfile' ≠ outfile
  ∧ ∃ w', report (Some a) matching outfile true w = (Ok tt, w')
          ∧ fs w' !! outfile = Some (written reported)
          ∧ fs w' !! outfile' = Some (written (sort_by_len reported)).
Proof.
  intros reported outfile'.
  assert (outfile' ≠ outfile) as Hne.
  { intros Heq. apply (f_equal length) in Heq. unfold outfile' in Heq.
    rewrite insert_thing_into_filename_length in Heq. simpl in Heq. lia. }
  split; [exact Hne|].
  rewrite report_bound. fold reported. fold outfile'.
  eexists. split; [reflexivity|]. simpl. split.
  - rewrite lookup_insert_ne by done. apply lookup_insert_eq.
  - apply lookup_insert_eq.
Qed.

Lemma insert_by_len_front x l :
  Forall (shorter x) l → insert_by_len x l = x :: l.
Proof.
  destruct 1 as [|y l Hxy _]; [done|]. simpl.
  unfold shorter in Hxy. apply Nat.leb_le in Hxy. by rewrite Hxy.
Qed.

Lemma sort_by_len_sorted_id l : StronglySorted shorter l → sort_by_len l = l.
Proof.
  induction 1 as [|x l Hs IH Hx]; [done|].
  cbn [sort_by_len foldr]. fold (sort_by_len l). rewrite IH.
  by apply insert_by_len_front.
Qed.

(** X18. The length sort leaves a list alone exactly when it is already in
    ascending order of length, so sorting a second time changes nothing;
    and it keeps the number of sentences. *)
Theorem sort_by_len_fixpoints (l : list ustring) :
  (sort_by_len l = l ↔ StronglySorted shorter l)
  ∧ sort_by_len (sort_by_len l) = sort_by_len l
  ∧ length (sort_by_len l) = length l.
Proof.
  split; [split|split].
  - intros <-. apply sort_by_len_sorted.
  - apply sort_by_len_sorted_id.
  - apply sort_by_len_sorted_id, sort_by_len_sorted.
  - apply Permutation_length, sort_by_len_perm.
Qed.

(** Induction that follows [replace_crlf]: one character, or two, at a
    time. *)
Lemma two_step_ind (P : ustring → Prop) :
  P [] → (∀ c, P [c]) →
  (∀ c d s, P s → P (d :: s) → P (c :: d :: s)) →
  ∀ s, P s.
Proof.
  intros Hnil Hone Hstep s.
  enough (P s ∧ ∀ c, P (c :: s)) as [? _] by done.
  induction s as [|d s [IH1 IH2]]; [by split|].
  split; [apply IH2|]. intros c. by apply Hstep.
Qed.

Lemma replace_crlf_two c d s :
  replace_crlf (c :: d :: s)
  = if (c =? 13) && (d =? 10) then 32 :: replace_crlf s
    else c :: replace_crlf (d :: s).
Proof. reflexivity. Qed.

Lemma has_crlf_two c d s :
  has_crlf (c :: d :: s) = ((c =? 13) && (d =? 10)) || has_crlf (d :: s).
Proof. reflexivity. Qed.

Lemma replace_crlf_head d s :
  ∃ h rest, replace_crlf (d :: s) = h :: rest ∧ (h = d ∨ h = 32).
Proof.
  destruct s as [|e s]; [by exists d, []; auto|]. rewrite replace_crlf_two.
  destruct ((d =? 13) && (e =? 10)); eexists _, _; eauto.
Qed.

(** X19. Replacing the CR-LF pairs of a sentence by spaces leaves no CR-LF
    pair in it (a replacement never brings a carriage return and a line
    feed together), does not lengthen it, and returns a sentence without
    such a pair unchanged; so replacing twice is replacing once. *)
Theorem replace_crlf_removes_all (s : ustring) :
  has_crlf (replace_crlf s) = false
  ∧ (length (replace_crlf s) ≤ length s)%nat
  ∧ (has_crlf s = false → replace_crlf s = s)
  ∧ replace_crlf (replace_crlf s) = replace_crlf s.
Proof.
  assert (∀ t, has_crlf (replace_crlf t) = false) as Hnone.
  { induction t as [|c|c d t IH1 IH2] using two_step_ind; [done..|].
    rewrite replace_crlf_two. destruct ((c =? 13) && (d =? 10)) eqn:Hcd.
    - destruct (replace_crlf t) as [|e r] eqn:Hr; [done|].
      rewrite has_crlf_two. by rewrite IH1.
    - destruct (replace_crlf_head d t) as (h & rest & Hh & Hhd).
      rewrite Hh in *. rewrite has_crlf_two, IH2.
      destruct Hhd as [->| ->]; [by rewrite Hcd|]. by rewrite andb_false_r. }
  assert (∀ t, has_crlf t = false → replace_crlf t = t) as Hid.
  { induction t as [|c|c d t IH1 IH2] using two_step_ind; [done..|].
    rewrite has_crlf_two, replace_crlf_two.
    intros Hcd. apply orb_false_elim in Hcd as [-> Hrest].
    f_equal. by apply IH2. }
  split; [apply Hnone|]. split; [|split; [apply Hid|apply Hid, Hnone]].
  induction s as [|c|c d t IH1 IH2] using two_step_ind; [done..|].
  rewrite replace_crlf_two. destruct ((c =? 13) && (d =? 10)).
  - rewrite !length_cons. lia.
  - rewrite !length_cons in *. lia.
Qed.

Lemma rfind_after p c n :
  rfind p c < Z.of_nat n → c ∉ drop n p.
Proof.
  intros Hlt. destruct (rfind_spec p c) as [[Hnot _]|(pre & post & -> & Hpost & Hr)].
  - intros Hin. apply Hnot. by eapply subseteq_drop.
  - rewrite Hr in Hlt. rewrite drop_app_ge by lia.
    destruct (n - length pre)%nat as [|m] eqn:Hm; [lia|]. simpl.
    intros Hin. apply Hpost. by eapply subseteq_drop.
Qed.

(** X20. The extension that [os.path.splitext] cuts off holds no path
    separator (neither [os.sep] nor [os.altsep]), so
    [insert_thing_into_filename] puts the marker into the last component
    of the path, after every directory name; and the parts it joins are
    those of the path: without a marker the path comes back unchanged. *)
Theorem insert_thing_into_filename_last_component (thing filename : ustring) :
  let ext := (splitext filename).2 in
  (os_sep ∉ ext)
  ∧ (∀ a, os_altsep = Some a → a ∉ ext)
  ∧ insert_thing_into_filename thing filename = (splitext filename).1 ++ thing ++ ext
  ∧ insert_thing_into_filename [] filename = filename.
Proof.
  intros ext.
  assert (insert_thing_into_filename [] filename = filename) as Hid.
  { unfold insert_thing_into_filename, splitext.
    by destruct (_splitext_spec filename os_sep os_altsep 46) as (root & e & -> & <- & _). }
  assert (insert_thing_into_filename thing filename = (splitext filename).1 ++ thing ++ ext)
    as Hjoin.
  { unfold ext, insert_thing_into_filename. by destruct (splitext filename). }
  enough ((os_sep ∉ ext) ∧ ∀ a, os_altsep = Some a → a ∉ ext) as [? ?] by done.
  unfold ext, splitext, _splitext.
  pose proof (rfind_lower filename os_sep) as Hlow.
  set (sepIndex := match os_altsep with
                   | Some a => Z.max (rfind filename os_sep) (rfind filename a)
                   | None => rfind filename os_sep
                   end).
  assert (rfind filename os_sep ≤ sepIndex
          ∧ ∀ a, os_altsep = Some a → rfind filename a ≤ sepIndex) as [Hsep Halt].
  { unfold sepIndex. destruct os_altsep as [a|]; split; try lia; [|done].
    intros a' [= <-]. lia. }
  destruct (sepIndex <? rfind filename 46) eqn:Hlt; simpl.
  2: { split; [apply not_elem_of_nil|]. intros a _. apply not_elem_of_nil. }
  destruct (has_non_dot _ _ _ _); simpl.
  2: { split; [apply not_elem_of_nil|]. intros a _. apply not_elem_of_nil. }
  apply Z.ltb_lt in Hlt. split.
  - apply rfind_after. lia.
  - intros a Ha. apply rfind_after. specialize (Halt a Ha). lia.
Qed.

End ReporterMore.

(** ** The whole run on readable files *)

Section WholeRun.
Context `{PyLib}.
Import Cache Loader Matcher Corrector Reporter Orchestrator.

Lemma written_snoc sentences s : written (sentences ++ [s]) = written sentences ++ block s.
Proof. unfold written. by rewrite foldl_app. Qed.

(** X21. The output file is the blocks of the sentences one after the
    other, in order: writing a list in two parts gives the bytes of the
    first part followed by those of the second, and no sentences give no
    bytes. *)
Theorem written_app (first second : list ustring) :
  written (first ++ second) = written first ++ written second
  ∧ written first = mjoin (block <$> first)
  ∧ written [] = [].
Proof.
  assert (∀ l k, written (l ++ k) = written l ++ written k) as Happ.
  { intros l k. induction k as [|s k IH] using rev_ind.
    - by rewrite !app_nil_r.
    - by rewrite app_assoc, !written_snoc, IH, app_assoc. }
  split; [apply Happ|]. split; [|done].
  induction first as [|s first IH]; [done|].
  change (s :: first) with ([s] ++ first) at 1. rewrite Happ, IH.
  rewrite fmap_cons. simpl. f_equal.
Qed.

(** X22. A run over an inspec whose files can all be opened, with a
    tokenizer loaded or loadable, a pattern that compiles, [args] bound and
    no cache flag, returns normally, and its output file holds exactly the
    sentences of those files that the pattern matches, in file order and
    then sentence order (corrected when [args.correct]); with the sorted
    pass the second file holds the same sentences sorted by length. *)
Theorem gutengrep_output_contents (a : Namespace) regex spec outfile ignore_case sort
    correct t p w :
  nonempty spec = true →
  glob_glob spec ≠ [] →
  (∀ f, f ∈ glob_glob spec → is_Some (fs w !! f)) →
  effective_tokenizer w = Some t →
  re_compile regex (re_flags ignore_case) = Some p →
  let corpus := mjoin (file_sentences t (fs w) <$> glob_glob spec) in
  let matching := List.filter p corpus in
  let reported := if ns_correct a then correct_those matching else matching in
  ∃ w', gutengrep (Some a) regex (Some spec) outfile ignore_case sort false correct w
        = (Ok tt, w')
        ∧ fs w' !! outfile = Some (written reported)
        ∧ (sort = true →
           fs w' !! insert_thing_into_filename (u "-sort") outfile
           = Some (written (sort_by_len reported))).
Proof.
  intros Hs Hg Hread Ht Hp corpus matching reported.
  unfold gutengrep. unfold bind at 1. rewrite resolve_files_found by done.
  unfold gutengrep_from, obtain_sentences. monad_unfold.
  unfold load_sentences_from_files.
  destruct (load_loop_effective t (glob_glob spec) [] w Hread Ht)
    as (w1 & -> & Hfs & _).
  fold corpus. unfold match_and_report, find_matching_sentences. monad_unfold.
  rewrite (match_loop_compiled _ _ p) by done. simpl. fold matching.
  rewrite report_bound. fold reported.
  destruct sort.
  - eexists. split; [reflexivity|]. simpl. split.
    + rewrite lookup_insert_ne by apply insert_thing_into_filename_differs.
      apply lookup_insert_eq.
    + intros _. apply lookup_insert_eq.
  - eexists. split; [reflexivity|]. simpl. split; [apply lookup_insert_eq|done].
Qed.

End WholeRun.

(** ** Further runs on the stand-in *)

Section MoreRuns.
#[local] Existing Instance Double.lib.
Import Cache Loader Matcher Corrector Reporter Orchestrator Double.

(** X5 at work: two sentences, then one. *)
Lemma find_matching_sentences_app_witness :
  find_matching_sentences (u "whale")
    ([u "Call me Ishmael."; u "The whale swam."]
     ++ [u "'Thar she blows!' cried a whale."]) 0
  = Ok ([u "The whale swam."] ++ [u "'Thar she blows!' cried a whale."]).
Proof.
  apply (find_matching_sentences_app (u "whale")
           [u "Call me Ishmael."; u "The whale swam."]
           [u "'Thar she blows!' cried a whale."] 0); reflexivity.
Defined.

(** X6 at work: the match set of the three sentences, matched again. *)
Lemma find_matching_sentences_again_witness :
  find_matching_sentences (u "whale")
    [u "The whale swam."; u "'Thar she blows!' cried a whale."] 0
  = Ok [u "The whale swam."; u "'Thar she blows!' cried a whale."].
Proof.
  apply (find_matching_sentences_again (u "whale") disk_sentences 0). reflexivity.
Defined.

(** X7 at work: the three files, in the order of the list. *)
Lemma load_sentences_from_files_in_order_witness :
  ∃ w', load_sentences_from_files txt_files (initial disk)
          = (Ok (mjoin (file_sentences split_tokenizer disk <$> txt_files)), w')
        ∧ fs w' = disk
        ∧ effective_tokenizer w' = Some split_tokenizer.
Proof.
  apply (load_sentences_from_files_in_order split_tokenizer txt_files (initial disk)).
  - intros f Hin. apply list_elem_of_In in Hin.
    destruct Hin as [<-|[<-|[<-|[]]]]; vm_compute; eauto.
  - reflexivity.
Defined.

(** X9 at work: [missing.txt] is not on the disk. *)
Lemma load_sentences_from_files_unreadable_witness :
  load_sentences_from_files ([u "a.txt"] ++ u "missing.txt" :: [u "b.txt"]) (initial disk)
  = (Raise (IOError (u "missing.txt")), loaded).
Proof.
  apply (load_sentences_from_files_unreadable [u "a.txt"] (u "missing.txt") [u "b.txt"]
           [u "Call me Ishmael."; u "The whale swam."]); reflexivity.
Defined.

(** X11 at work: the first call reads the files and writes the cache, the
    second returns the record though [files] is not even assigned. *)
Lemma obtain_sentences_miss_then_hit_witness :
  obtain_sentences None true {| fs := cached_disk; TOKENIZER := Some split_tokenizer |}
  = (Ok disk_sentences, {| fs := cached_disk; TOKENIZER := Some split_tokenizer |}).
Proof.
  apply (obtain_sentences_miss_then_hit (Some txt_files) None disk_sentences (initial disk)
           {| fs := cached_disk; TOKENIZER := Some split_tokenizer |}).
  - left. reflexivity.
  - reflexivity.
  - discriminate.
  - reflexivity.
Defined.

(** X12 at work: no inspec, no cache flag. *)
Lemma gutengrep_needs_inspec_or_cache_witness :
  gutengrep (Some cli) (u "whale") None (u "output.log") false true false true
    (initial disk)
  = (Raise (SystemExit (u "Error: inspec and/or cache arguments needed")), initial disk).
Proof.
  exact (gutengrep_needs_inspec_or_cache (Some cli) (u "whale") None (u "output.log")
           false true true (initial disk) eq_refl).
Defined.

(** X13 at work: the run of [cli] leaves [a.txt] as it was. *)
Lemma gutengrep_writes_only_its_files_witness :
  fs (gutengrep (Some cli) (u "whale") (Some (u "*.txt")) (u "output.log")
        false true true true (initial disk)).2 !! u "a.txt"
  = fs (initial disk) !! u "a.txt".
Proof.
  apply (gutengrep_writes_only_its_files (Some cli) (u "whale") (Some (u "*.txt"))
           (u "output.log") false true true true (initial disk) (u "a.txt"));
    intros Hx; vm_compute in Hx; discriminate Hx.
Defined.

(** X14 at work: the direct call without [args] fails after the filter,
    and the files are as before. *)
Lemma gutengrep_failure_writes_no_output_witness :
  fs loaded = fs (initial disk).
Proof.
  exact (proj2 (gutengrep_failure_writes_no_output None (u "whale") (Some (u "*.txt"))
                  (u "output.log") false true false true (initial disk)
                  (NameError (u "args")) loaded eq_refl) eq_refl).
Defined.

(** X15 at work: the pattern that does not compile, on three sentences and
    on none. *)
Lemma match_and_report_invalid_pattern_witness :
  match_and_report (Some cli) disk_sentences (u "(") (u "output.log") false true
    (initial disk) = (Raise re_error, initial disk)
  ∧ match_and_report (Some cli) [] (u "(") (u "output.log") false false (initial disk)
    = (Ok tt, set_fs (<[u "output.log" := []]>) (initial disk)).
Proof.
  split.
  - destruct (match_and_report_invalid_pattern cli disk_sentences (u "(") (u "output.log")
                false (initial disk)) as [Hstops _]; [reflexivity|].
    apply Hstops. discriminate.
  - destruct (match_and_report_invalid_pattern cli [] (u "(") (u "output.log")
                false (initial disk)) as [_ Hgoes]; [reflexivity|].
    apply Hgoes. reflexivity.
Defined.

(** X16 at work: [b.txt] was removed after the glob listed it. *)
Lemma gutengrep_failure_modes_witness :
  ∃ spec, Some (u "*.txt") = Some spec ∧ u "b.txt" ∈ glob_glob spec.
Proof.
  exact (gutengrep_failure_modes cli (u "whale") (Some (u "*.txt")) (u "output.log")
           false true false true (initial (delete (u "b.txt") disk))
           (IOError (u "b.txt"))
           {| fs := delete (u "b.txt") disk; TOKENIZER := Some split_tokenizer |}
           eq_refl).
Defined.

(** X22 at work: the command line [cli] on the disk. *)
Lemma gutengrep_output_contents_witness :
  let corpus :=
    mjoin (file_sentences split_tokenizer (fs (initial disk)) <$> glob_glob (u "*.txt")) in
  let matching := List.filter (λ s, contains s (u "whale")) corpus in
  let reported := if ns_correct cli then correct_those matching else matching in
  ∃ w', gutengrep (Some cli) (u "whale") (Some (u "*.txt")) (u "output.log")
          false true false true (initial disk) = (Ok tt, w')
        ∧ fs w' !! u "output.log" = Some (written reported)
        ∧ (true = true →
           fs w' !! insert_thing_into_filename (u "-sort") (u "output.log")
           = Some (written (sort_by_len reported))).
Proof.
  apply (gutengrep_output_contents cli (u "whale") (u "*.txt") (u "output.log")
           false true true split_tokenizer (λ s, contains s (u "whale")) (initial disk)).
  - reflexivity.
  - discriminate.
  - intros f Hin. apply list_elem_of_In in Hin.
    destruct Hin as [<-|[<-|[<-|[]]]]; vm_compute; eauto.
  - reflexivity.
  - reflexivity.
Defined.

End MoreRuns.
